(** * N-Queens as a CSP: a model of [solver.py] and its properties

    The Python class [NQueensCSP] keeps two attributes, [domains] (a dict from
    column index to the list of candidate rows) and [constraints] (a list of
    ordered pairs of columns).  Its methods are embedded here as functions over
    that state.  Python exceptions are results of the error monad [res]; the
    two unbounded loops ([while] of AC-3, recursion of the search) take fuel,
    and the entry points compute a fuel that is shown to be enough. *)

From Stdlib Require Import ZArith List Lia Bool String Sorted Permutation.
From stdpp Require Import base option list gmap fin_maps.

Local Open Scope Z_scope.

(** ** Results of Python calls *)

Inductive exn : Type := KeyError | ValueError | UnboundLocalError.

Inductive res (A : Type) : Type :=
| Ret (a : A)
| Raise (e : exn)
| OutOfFuel.
Arguments Ret {A} a.
Arguments Raise {A} e.
Arguments OutOfFuel {A}.

Definition res_bind {A B : Type} (f : A → res B) (m : res A) : res B :=
  match m with
  | Ret a => f a
  | Raise e => Raise e
  | OutOfFuel => OutOfFuel
  end.

#[global] Instance res_mret : MRet res := @Ret.
#[global] Instance res_mbind : MBind res := @res_bind.

(** [d[k]] on a dict: [KeyError] when the key is missing. *)
Definition getitem {V : Type} (d : gmap Z V) (k : Z) : res V :=
  match d !! k with
  | Some v => Ret v
  | None => Raise KeyError
  end.

(** [del d[k]]: [KeyError] when the key is missing. *)
Definition delitem {V : Type} (d : gmap Z V) (k : Z) : res (gmap Z V) :=
  match d !! k with
  | Some _ => Ret (delete k d)
  | None => Raise KeyError
  end.

(** [range(n)]: empty when [n <= 0]. *)
Definition range (n : Z) : list Z := map Z.of_nat (seq 0 (Z.to_nat n)).

(** [len(d)] of a dict or list, as a Python integer. *)
Definition len_dict {V : Type} (d : gmap Z V) : Z := Z.of_nat (size d).
Definition len_list {A : Type} (l : list A) : Z := Z.of_nat (length l).

(** Monadic map and fold, for comprehensions and loops whose body may raise. *)
Fixpoint mapM {A B : Type} (f : A → res B) (l : list A) : res (list B) :=
  match l with
  | [] => Ret []
  | x :: l' => y ← f x; ys ← mapM f l'; Ret (y :: ys)
  end.

Fixpoint foldM {A S : Type} (f : S → A → res S) (l : list A) (s : S) : res S :=
  match l with
  | [] => Ret s
  | x :: l' => s' ← f s x; foldM f l' s'
  end.

(** ** The solver state *)

Record csp : Type := Csp {
  domains : gmap Z (list Z);
  constraints : list (Z * Z)
}.

(** [__init__] *)
Definition csp_init : csp := Csp ∅ [].

(** The part of [input_reader] that follows the reading of [qcolumns]:
    lines 39 and 41, from the board size [n]. *)
Definition init_domains (n : Z) : gmap Z (list Z) :=
  list_to_map (map (λ i, (i, range n)) (range n)).

Definition init_constraints (n : Z) : list (Z * Z) :=
  flat_map (λ i, flat_map (λ j, if bool_decide (i ≠ j) then [(i, j)] else [])
                          (range n))
           (range n).

(** [input_reader]: the positions read (from the file, or drawn at random) are
    the argument; they are returned as they are, and only their number enters
    the state.  The previous state is overwritten. *)
Definition input_reader (self : csp) (qcolumns : list Z) : list Z * csp :=
  let n := len_list qcolumns in
  (qcolumns, Csp (init_domains n) (init_constraints n)).

(** ** Consistency check *)

Definition conflict (current_var current_val : Z) (item : Z * Z) : bool :=
  let '(assigned_var, assigned_val) := item in
  (assigned_val =? current_val)
  || (Z.abs (assigned_val - current_val) =? Z.abs (assigned_var - current_var)).

(** The loop returns [False] at the first conflicting item. *)
Definition check_consistency (current_var current_val : Z)
    (assignment : gmap Z Z) : bool :=
  forallb (λ item, negb (conflict current_var current_val item))
          (map_to_list assignment).

(** ** Variable ordering *)

Definition unassigned_variables (ds : gmap Z (list Z)) (assignment : gmap Z Z)
    : list Z :=
  List.filter (λ variable, bool_decide (assignment !! variable = None))
              (range (len_dict ds)).

(** Lexicographic [<] on the key tuples [(len, -variable)]. *)
Definition key_lt (k1 k2 : Z * Z) : bool :=
  (k1.1 <? k2.1) || ((k1.1 =? k2.1) && (k1.2 <? k2.2)).

(** [min(..., key=...)] keeps the first item among those of least key. *)
Fixpoint min_from {A : Type} (best : A * (Z * Z)) (l : list (A * (Z * Z))) : A :=
  match l with
  | [] => best.1
  | item :: l' => if key_lt item.2 best.2 then min_from item l'
                  else min_from best l'
  end.

Definition py_min {A : Type} (l : list (A * (Z * Z))) : res A :=
  match l with
  | [] => Raise ValueError
  | item :: l' => Ret (min_from item l')
  end.

Definition mrv_key (ds : gmap Z (list Z)) (variable : Z) : res (Z * (Z * Z)) :=
  d ← getitem ds variable; Ret (variable, (len_list d, - variable)).

Definition select_unassigned (ds : gmap Z (list Z)) (assignment : gmap Z Z)
    : res Z :=
  keyed ← mapM (mrv_key ds) (unassigned_variables ds assignment);
  py_min keyed.

(** ** Value ordering *)

(** [calculate_lcv]: the two nested loops, with the counter threaded. *)
Definition count_compatible (adjacent_variable : Z) (extended : gmap Z Z)
    (d : list Z) (compatibility_count : Z) : Z :=
  fold_left (λ count possible_value,
               if check_consistency adjacent_variable possible_value extended
               then count + 1 else count)
            d compatibility_count.

Definition calculate_lcv (ds : gmap Z (list Z)) (selected_variable : Z)
    (current_assignment : gmap Z Z) (value : Z) : res Z :=
  foldM (λ compatibility_count adjacent_variable,
           if bool_decide (adjacent_variable ≠ selected_variable)
              && bool_decide (current_assignment !! adjacent_variable = None)
           then d ← getitem ds adjacent_variable;
                Ret (count_compatible adjacent_variable
                       (<[selected_variable := value]> current_assignment)
                       d compatibility_count)
           else Ret compatibility_count)
        (range (len_dict ds)) 0.

(** [sorted(l, key=f, reverse=True)]: every key is computed once, in list
    order; the sort is stable, also when reversed, so an item goes in front of
    the items of the same key that followed it in [l]. *)
Fixpoint insert_desc {A : Type} (item : A * Z) (l : list (A * Z)) : list (A * Z) :=
  match l with
  | [] => [item]
  | other :: l' => if item.2 <? other.2 then other :: insert_desc item l'
                   else item :: l
  end.

Definition sort_desc {A : Type} (l : list (A * Z)) : list (A * Z) :=
  foldr insert_desc [] l.

Definition sorted_reverse {A : Type} (key : A → res Z) (l : list A) : res (list A) :=
  keyed ← mapM (λ x, k ← key x; Ret (x, k)) l;
  Ret (map fst (sort_desc keyed)).

Definition prioritize_domain_values (ds : gmap Z (list Z)) (selected_variable : Z)
    (current_assignment : gmap Z Z) : res (list Z) :=
  d ← getitem ds selected_variable;
  sorted_reverse (calculate_lcv ds selected_variable current_assignment) d.

(** ** Arc revision and the AC-3 loop *)

(** [list.remove(v)]: drops the first occurrence, [ValueError] when absent. *)
Fixpoint list_remove (v : Z) (l : list Z) : res (list Z) :=
  match l with
  | [] => Raise ValueError
  | w :: l' => if v =? w then Ret l' else l'' ← list_remove v l'; Ret (w :: l'')
  end.

(** The condition of line 98, as written: the outer [all] ranges over the
    domain of [variable_y], and so does the [any] inside it (its own
    [value_y] hides the outer one). *)
Definition no_compatible (value_x : Z) (dy : list Z) : bool :=
  forallb (λ _ : Z, negb (existsb (λ value_y, value_x =? value_y) dy)) dy.

(** The loop of [revise_domains] over the copy [values] of the domain of
    [variable_x]; both domains are read from the store at each round. *)
Fixpoint revise_loop (variable_x variable_y : Z) (values : list Z)
    (ds : gmap Z (list Z)) (domain_updated : bool) : res (bool * gmap Z (list Z)) :=
  match values with
  | [] => Ret (domain_updated, ds)
  | value_x :: rest =>
      dy ← getitem ds variable_y;
      if no_compatible value_x dy then
        dx ← getitem ds variable_x;
        dx' ← list_remove value_x dx;
        revise_loop variable_x variable_y rest (<[variable_x := dx']> ds) true
      else revise_loop variable_x variable_y rest ds domain_updated
  end.

Definition revise_domains (ds : gmap Z (list Z)) (variable_x variable_y : Z)
    : res (bool * gmap Z (list Z)) :=
  dx ← getitem ds variable_x;
  revise_loop variable_x variable_y dx ds false.

(** The arcs appended to the queue after a change (lines 119 to 121). *)
Definition requeue (cs : list (Z * Z)) (current_var next_var : Z) : list (Z * Z) :=
  map (λ c : Z * Z, (c.1, current_var))
      (List.filter (λ c : Z * Z, bool_decide (c.1 ≠ next_var)) cs).

Fixpoint ac3_loop (fuel : nat) (cs : list (Z * Z)) (constraints_queue : list (Z * Z))
    (ds : gmap Z (list Z)) : res (bool * gmap Z (list Z)) :=
  match fuel with
  | O => OutOfFuel
  | S fuel' =>
      match constraints_queue with
      | [] => Ret (true, ds)
      | (current_var, next_var) :: queue' =>
          '(changed, ds') ← revise_domains ds current_var next_var;
          if changed : bool then
            dx ← getitem ds' current_var;
            match dx with
            | [] => Ret (false, ds')
            | _ :: _ =>
                ac3_loop fuel' cs (queue' ++ requeue cs current_var next_var) ds'
            end
          else ac3_loop fuel' cs queue' ds'
      end
  end.

(** Sum of the lengths of all domains. *)
Definition total_size (ds : gmap Z (list Z)) : nat :=
  map_fold (λ (_ : Z) (d : list Z) (acc : nat), (length d + acc)%nat) 0%nat ds.

(** A number of rounds that the loop cannot exceed: every round takes one arc
    off the queue, and puts back at most [len(constraints)] arcs when it has
    removed a value. *)
Definition ac3_fuel (self : csp) : nat :=
  S (length (constraints self) + total_size (domains self) * length (constraints self)).

Definition apply_arcconsistency_algorithm (self : csp) : res (bool * csp) :=
  '(ok, ds') ← ac3_loop (ac3_fuel self) (constraints self) (constraints self)
                         (domains self);
  Ret (ok, Csp ds' (constraints self)).

(** ** Backtracking search *)

(** The [for] loop of [attempt_solution]; [rec] is the recursive call.  The
    assignment is one dict mutated in place: each result carries the returned
    value and the contents of that dict on return. *)
Fixpoint try_values (rec : gmap Z Z → res (option (gmap Z Z) * gmap Z Z))
    (next_variable : Z) (viable_values : list Z) (current_assignment : gmap Z Z)
    : res (option (gmap Z Z) * gmap Z Z) :=
  match viable_values with
  | [] => Ret (None, current_assignment)
  | possible_value :: rest =>
      if check_consistency next_variable possible_value current_assignment then
        '(found, a) ← rec (<[next_variable := possible_value]> current_assignment);
        match found with
        | Some potential_solution => Ret (Some potential_solution, a)
        | None =>
            a' ← delitem a next_variable;
            try_values rec next_variable rest a'
        end
      else try_values rec next_variable rest current_assignment
  end.

Fixpoint attempt_solution (fuel : nat) (ds : gmap Z (list Z))
    (current_assignment : gmap Z Z) : res (option (gmap Z Z) * gmap Z Z) :=
  match fuel with
  | O => OutOfFuel
  | S fuel' =>
      if len_dict current_assignment =? len_dict ds
      then Ret (Some current_assignment, current_assignment)
      else
        next_variable ← select_unassigned ds current_assignment;
        viable_values ← prioritize_domain_values ds next_variable current_assignment;
        try_values (attempt_solution fuel' ds) next_variable viable_values
                   current_assignment
  end.

(** Depth of the recursion: one call per variable, and the last one. *)
Definition search_fuel (ds : gmap Z (list Z)) : nat := S (size ds).

(** ** The entry point *)

(** A local variable of [resolve_nqueens] that only some paths assign. *)
Inductive local (A : Type) : Type := Unbound | Bound (a : A).
Arguments Unbound {A}.
Arguments Bound {A} a.

(** Lines 202 to 204: the value of [solution_assignment] after them. *)
Definition search_phase (self : csp) : res (local (option (gmap Z Z))) :=
  '(ok, self') ← apply_arcconsistency_algorithm self;
  if ok : bool then
    '(solution_assignment, _) ←
      attempt_solution (search_fuel (domains self')) (domains self') ∅;
    Ret (Bound solution_assignment)
  else Ret Unbound.

(** The solving core as a function of the board size. *)
Definition solve (n : Z) : res (local (option (gmap Z Z))) :=
  search_phase (Csp (init_domains n) (init_constraints n)).

(** What the caller observes of [resolve_nqueens]: the lines printed and the
    call of [visualize_board].  The elapsed time is not modelled: its line is
    an event without content. *)
Inductive event : Type :=
| Printed (line : string)
| PrintedPosition (position : Z * Z)
| PrintedExecutionTime
| VisualizeBoard (initial_positions final_positions : list (Z * Z)).

(** Lines 213 to 215: the positions appended (and printed) so far, and how the
    loop ended. *)
Fixpoint final_positions (solution_assignment : gmap Z Z) (columns : list Z)
    : list (Z * Z) * res () :=
  match columns with
  | [] => ([], Ret ())
  | column :: rest =>
      match solution_assignment !! column with
      | None => ([], Raise KeyError)
      | Some row =>
          let '(positions, r) := final_positions solution_assignment rest in
          ((column + 1, row + 1) :: positions, r)
      end
  end.

(** [resolve_nqueens] from line 200 on, in the state left by [input_reader]:
    the events in order, and how the run ended. *)
Definition resolve_from (self : csp) (initial_queen_positions : list Z)
    : list event * res () :=
  let initial_queen_positions_forvisual :=
    imap (λ index number, (Z.of_nat index + 1, number)) initial_queen_positions in
  match search_phase self with
  | Raise e => ([], Raise e)
  | OutOfFuel => ([], OutOfFuel)
  | Ret Unbound =>
      (* line 223 reads a name that no path has assigned *)
      ([PrintedExecutionTime], Raise UnboundLocalError)
  | Ret (Bound None) =>
      ([Printed "No solution found"; PrintedExecutionTime;
        Printed "No solution found."], Ret ())
  | Ret (Bound (Some solution)) =>
      let '(queen_final_positions, r) :=
        final_positions solution (range (len_list initial_queen_positions)) in
      let printed := [Printed "Solution found"; Printed EmptyString]
                     ++ map PrintedPosition queen_final_positions in
      match r with
      | Ret _ =>
          (printed ++ [PrintedExecutionTime;
                       VisualizeBoard initial_queen_positions_forvisual
                                      queen_final_positions],
           Ret ())
      | _ => (printed, r)
      end
  end.

Definition resolve_nqueens (self : csp) (qcolumns : list Z) : list event * res () :=
  let '(initial_queen_positions, self') := input_reader self qcolumns in
  resolve_from self' initial_queen_positions.

(** * Vocabulary of the properties *)

(** The keys of the store are the variables [0 .. len(domains) - 1], as
    [input_reader] leaves them. *)
Definition wf_domains (ds : gmap Z (list Z)) : Prop :=
  ∀ v, 0 ≤ v < len_dict ds → is_Some (ds !! v).

(** The key of line 64 where the variable has a domain. *)
Definition key_of (ds : gmap Z (list Z)) (variable : Z) : Z * Z :=
  (len_list (default [] (ds !! variable)), - variable).

(** Sum of a list of integers. *)
Definition Zsum (l : list Z) : Z := fold_right Z.add 0 l.

(** The score in the words of the design: over every other unassigned
    variable [u], the number of values of [u]'s domain consistent with the
    assignment extended by [variable := v]. *)
Definition lcv_score (ds : gmap Z (list Z)) (variable : Z) (assignment : gmap Z Z)
    (v : Z) : Z :=
  Zsum (map (λ u, len_list
                    (List.filter
                       (λ w, check_consistency u w (<[variable := v]> assignment))
                       (default [] (ds !! u))))
            (List.filter (λ u, bool_decide (u ≠ variable)
                               && bool_decide (assignment !! u = None))
                         (range (len_dict ds)))).

(** Descending order of the keys of decorated items. *)
Definition desc {A : Type} : relation (A * Z) := λ p q, q.2 ≤ p.2.

(** Items decorated with a key that is a function [g] of the item. *)
Definition decorated {A : Type} (g : A → Z) (l : list (A * Z)) : Prop :=
  Forall (λ p : A * Z, p.2 = g p.1) l.

(** [v in l] *)
Definition mem (v : Z) (l : list Z) : bool := existsb (λ w, v =? w) l.

(** [ds'] has the keys of [ds], and each of its domains results from the
    domain in [ds] by removing values. *)
Definition shrinks (ds ds' : gmap Z (list Z)) : Prop :=
  ∀ v, option_Forall2 (λ d' d : list Z, d' `sublist_of` d) (ds' !! v) (ds !! v).

(** Every arc names variables that have a domain. *)
Definition arcs_in_store (ds : gmap Z (list Z)) (arcs : list (Z * Z)) : Prop :=
  ∀ c, In c arcs → is_Some (ds !! c.1) ∧ is_Some (ds !! c.2).

(** No two queens on a row or on a diagonal. *)
Definition valid_placement (sol : gmap Z Z) : Prop :=
  ∀ vi ri vj rj, sol !! vi = Some ri → sol !! vj = Some rj → vi ≠ vj →
    ri ≠ rj ∧ Z.abs (ri - rj) ≠ Z.abs (vi - vj).

(** One entry per column of the board, and no other entry. *)
Definition complete (n : Z) (sol : gmap Z Z) : Prop :=
  size sol = Z.to_nat n ∧ ∀ v, 0 ≤ v < n → is_Some (sol !! v).

(** The two predicates above, as tests that can be run. *)
Definition valid_placementb (sol : gmap Z Z) : bool :=
  forallb (λ p : Z * Z,
     forallb (λ q : Z * Z,
        (p.1 =? q.1)
        || (negb (p.2 =? q.2) && negb (Z.abs (p.2 - q.2) =? Z.abs (p.1 - q.1))))
       (map_to_list sol))
    (map_to_list sol).

Definition completeb (n : Z) (sol : gmap Z Z) : bool :=
  (Z.of_nat (size sol) =? n)
  && forallb (λ v, bool_decide (is_Some (sol !! v))) (range n).

(** The search, run on one board size. *)
Definition solution_ok (n : Z) : bool :=
  match solve n with
  | Ret (Bound (Some sol)) => completeb n sol && valid_placementb sol
  | _ => false
  end.

(** An event without the positions that were read. *)
Definition without_initial (e : event) : event :=
  match e with
  | VisualizeBoard _ final_positions => VisualizeBoard [] final_positions
  | _ => e
  end.

(** A store on which AC-3 fails: the two columns have no row in common. *)
Definition disjoint_store : csp :=
  Csp (<[0 := [0]]> (<[1 := [1]]> ∅)) [(0, 1); (1, 0)].

(** The design's test for removing [v]: the domain of [y] holds no value that
    differs from [v]. *)
Definition no_differing_value (v : Z) (dy : list Z) : Prop :=
  ∀ w, In w dy → w = v.

(** A store with domains of different sizes: columns 1 and 2 have one row
    left, and column 2 is the one chosen. *)
Definition uneven_store : gmap Z (list Z) :=
  <[0 := [0; 1]]> (<[1 := [0]]> (<[2 := [1]]> (<[3 := [0; 1; 2]]> ∅))).

(** Every entry of the assignment gives a variable of the store a value of
    its domain. *)
Definition within_store (ds : gmap Z (list Z)) (a : gmap Z Z) : Prop :=
  ∀ v r, a !! v = Some r →
    0 ≤ v < len_dict ds ∧ ∃ d, ds !! v = Some d ∧ In r d.

(** Every variable of the store has a value, taken from its domain. *)
Definition placement_in (ds : gmap Z (list Z)) (sol : gmap Z Z) : Prop :=
  ∀ v, 0 ≤ v < len_dict ds → ∃ r d, sol !! v = Some r ∧ ds !! v = Some d ∧ In r d.

(** The arc [(x, y)] as [revise_domains] leaves it: each value of [x]'s
    domain occurs in [y]'s domain. *)
Definition arc_consistent (ds : gmap Z (list Z)) (x y : Z) : Prop :=
  ∀ dx dy, ds !! x = Some dx → ds !! y = Some dy → ∀ v, In v dx → In v dy.

(** A placement of [n] queens on the [n] columns, rows within the board. *)
Definition queens (n : Z) (sol : gmap Z Z) : Prop :=
  (∀ v, 0 ≤ v < n → ∃ r, sol !! v = Some r ∧ 0 ≤ r < n) ∧ valid_placement sol.

(** What a successful call promises about the dict it got and the one it
    returns. *)
Definition sound_result (ds : gmap Z (list Z)) (a sol a' : gmap Z Z) : Prop :=
  a' = sol ∧ a ⊆ sol ∧ valid_placement sol ∧ within_store ds sol ∧ size sol = size ds.

(** The one-based positions that [resolve_nqueens] prints and shows for a
    solution. *)
Definition one_based (sol : gmap Z Z) (columns : list Z) : list (Z * Z) :=
  map (λ column, (column + 1, default 0 (sol !! column) + 1)) columns.

(** The events of a run that found [sol], after reading [qcolumns]. *)
Definition solution_events (qcolumns : list Z) (sol : gmap Z Z) : list event :=
  let final := one_based sol (range (len_list qcolumns)) in
  [Printed "Solution found"; Printed EmptyString]
  ++ map PrintedPosition final
  ++ [PrintedExecutionTime;
      VisualizeBoard (imap (λ index number, (Z.of_nat index + 1, number)) qcolumns)
                     final].

(** The events of a run whose search failed. *)
Definition failure_events : list event :=
  [Printed "No solution found"; PrintedExecutionTime; Printed "No solution found."].

(** The arcs that leave one variable. *)
Definition arcs_from (i : Z) (l : list Z) : list (Z * Z) :=
  flat_map (λ j, if bool_decide (i ≠ j) then [(i, j)] else []) l.

(** A store on which AC-3 removes values and succeeds: the two columns share
    the rows 1 and 2. *)
Definition overlap_store : csp :=
  Csp (<[0 := [0; 1; 2]]> (<[1 := [1; 2; 3]]> ∅)) [(0, 1); (1, 0)].

(** A store in which variable 1 has no domain. *)
Definition gap_store : gmap Z (list Z) := <[0 := [0]]> (<[5 := [1]]> ∅).

(** The placement found on the board of size 4. *)
Definition placement4 : gmap Z Z := <[0 := 2]> (<[1 := 0]> (<[2 := 3]> (<[3 := 1]> ∅))).

(** * Properties *)

(** ** Ranges and stores *)

Lemma in_range (n v : Z) : In v (range n) ↔ 0 ≤ v < n.
Proof.
  unfold range. rewrite in_map_iff. split.
  - intros (k & <- & Hk). apply in_seq in Hk. lia.
  - intros Hv. exists (Z.to_nat v). split; [lia|]. apply in_seq. lia.
Qed.

Lemma range_nonpos (n : Z) : n ≤ 0 → range n = [].
Proof. intros Hn. unfold range. replace (Z.to_nat n) with 0%nat by lia. done. Qed.

Lemma NoDup_range (n : Z) : List.NoDup (range n).
Proof.
  unfold range. apply Finite.Injective_map_NoDup; [|apply seq_NoDup].
  intros a b Hab. lia.
Qed.

Lemma getitem_Some {V : Type} (d : gmap Z V) (k : Z) (v : V) :
  d !! k = Some v → getitem d k = Ret v.
Proof. unfold getitem. by intros ->. Qed.

Lemma bind_Ret_inv {A B : Type} (m : res A) (f : A → res B) (b : B) :
  m ≫= f = Ret b → ∃ a, m = Ret a ∧ f a = Ret b.
Proof. destruct m as [a| |]; simpl; [|done..]. intros H. by exists a. Qed.

Lemma mapM_ext_in {A B : Type} (f : A → res B) (g : A → B) (l : list A) :
  (∀ x, In x l → f x = Ret (g x)) → mapM f l = Ret (map g l).
Proof.
  induction l as [|x l IH]; intros Hf; [done|]. simpl.
  rewrite Hf by (by left). simpl. rewrite IH by (intros; apply Hf; by right).
  done.
Qed.

(** ** Variable ordering: minimum remaining values *)

Lemma mrv_key_Some ds v : is_Some (ds !! v) → mrv_key ds v = Ret (v, key_of ds v).
Proof. intros [d Hd]. unfold mrv_key, key_of. rewrite (getitem_Some _ _ _ Hd), Hd. done. Qed.

Lemma min_from_least {A : Type} (best : A * (Z * Z)) (l : list (A * (Z * Z))) :
  ∃ item, In item (best :: l) ∧ min_from best l = item.1
          ∧ ∀ other, In other (best :: l) → key_lt other.2 item.2 = false.
Proof.
  revert best. induction l as [|x l IH]; intros best.
  - exists best. split; [by left|]. split; [done|].
    intros other [<-|[]]. unfold key_lt.
    destruct best as [b [k1 k2]]; simpl.
    apply orb_false_intro; [lia|]. apply andb_false_intro2. lia.
  - simpl min_from. destruct (key_lt x.2 best.2) eqn:Hlt.
    + destruct (IH x) as (item & Hin & Heq & Hmin).
      exists item. split; [by right|]. split; [done|].
      intros other [<-|Hother]; [|by apply Hmin].
      specialize (Hmin x (or_introl eq_refl)).
      unfold key_lt in *.
      destruct best as [b [b1 b2]], x as [x0 [x1 x2]], item as [i0 [i1 i2]];
        simpl in *.
      apply orb_true_iff in Hlt. apply orb_false_elim in Hmin as [H1 H2].
      apply andb_false_iff in H2.
      apply orb_false_intro; [|apply andb_false_iff];
        destruct Hlt as [Hlt|[? ?]%andb_true_iff]; lia.
    + destruct (IH best) as (item & Hin & Heq & Hmin).
      exists item. split.
      { destruct Hin as [<-|Hin]; [by left|by right; right]. }
      split; [done|].
      intros other [<-|[<-|Hother]]; [apply Hmin; by left| |apply Hmin; by right].
      specialize (Hmin best (or_introl eq_refl)).
      unfold key_lt in *.
      destruct best as [b [b1 b2]], x as [x0 [x1 x2]], item as [i0 [i1 i2]];
        simpl in *.
      apply orb_false_elim in Hlt as [H3 H4]. apply andb_false_iff in H4.
      apply orb_false_elim in Hmin as [H1 H2]. apply andb_false_iff in H2.
      apply orb_false_intro; [|apply andb_false_iff]; lia.
Qed.

Lemma in_unassigned_variables ds a v :
  In v (unassigned_variables ds a) ↔ 0 ≤ v < len_dict ds ∧ a !! v = None.
Proof.
  unfold unassigned_variables. rewrite filter_In, in_range, bool_decide_eq_true. done.
Qed.

(** C4: when some variable is unassigned, [select_unassigned] returns an
    unassigned variable whose domain is the smallest, and among the unassigned
    variables whose domains are that small, the one of largest index. *)
Theorem select_unassigned_mrv (ds : gmap Z (list Z)) (assignment : gmap Z Z) :
  wf_domains ds →
  (∃ u, 0 ≤ u < len_dict ds ∧ assignment !! u = None) →
  ∃ v d, select_unassigned ds assignment = Ret v
    ∧ 0 ≤ v < len_dict ds ∧ assignment !! v = None ∧ ds !! v = Some d
    ∧ ∀ u du, 0 ≤ u < len_dict ds → assignment !! u = None → ds !! u = Some du →
        (length d < length du)%nat ∨ (length d = length du ∧ u ≤ v).
Proof.
  intros Hwf (u0 & Hu0 & Hu0a).
  unfold select_unassigned.
  rewrite (mapM_ext_in _ (λ v, (v, key_of ds v))); last first.
  { intros x Hx%in_unassigned_variables. apply mrv_key_Some, Hwf, Hx. }
  simpl.
  destruct (unassigned_variables ds assignment) as [|x l] eqn:Hl.
  { exfalso. assert (In u0 []) as []. rewrite <- Hl.
    by apply in_unassigned_variables. }
  simpl.
  destruct (min_from_least (x, key_of ds x) (map (λ v, (v, key_of ds v)) l))
    as (item & Hin & Heq & Hmin).
  change ((x, key_of ds x) :: map (λ v, (v, key_of ds v)) l)
    with (map (λ v, (v, key_of ds v)) (x :: l)) in Hin, Hmin.
  rewrite <- Hl in Hin, Hmin.
  apply in_map_iff in Hin as (v & <- & Hv).
  apply in_unassigned_variables in Hv as [Hvr Hva].
  destruct (Hwf v Hvr) as [d Hd].
  exists v, d. split; [by rewrite Heq|]. do 3 (split; [done|]).
  intros u du Hur Hua Hdu.
  specialize (Hmin (u, key_of ds u)).
  rewrite in_map_iff in Hmin.
  assert (key_lt (key_of ds u) (key_of ds v) = false) as Hk.
  { apply Hmin. exists u. split; [done|]. by apply in_unassigned_variables. }
  unfold key_lt, key_of, len_list in Hk. rewrite Hd, Hdu in Hk. simpl in Hk.
  apply orb_false_elim in Hk as [H1 H2]. apply andb_false_iff in H2. lia.
Qed.

(** ** Value ordering: least constraining value *)

Lemma count_compatible_filter u ext d c :
  count_compatible u ext d c
  = c + len_list (List.filter (λ w, check_consistency u w ext) d).
Proof.
  unfold count_compatible, len_list. revert c.
  induction d as [|w d IH]; intros c; simpl; [lia|].
  rewrite IH. destruct (check_consistency u w ext); simpl; lia.
Qed.

Lemma calculate_lcv_score ds variable assignment v :
  wf_domains ds →
  calculate_lcv ds variable assignment v = Ret (lcv_score ds variable assignment v).
Proof.
  intros Hwf. unfold calculate_lcv, lcv_score.
  assert (∀ u, In u (range (len_dict ds)) → is_Some (ds !! u)) as Hl.
  { intros u Hu%in_range. by apply Hwf. }
  rewrite <- (Z.add_0_l (Zsum _)).
  generalize 0 as c.
  revert Hl. generalize (range (len_dict ds)) as l.
  induction l as [|u l IH]; intros Hl c; simpl.
  { f_equal. lia. }
  destruct (Hl u (or_introl eq_refl)) as [d Hd].
  destruct (bool_decide (u ≠ variable) && bool_decide (assignment !! u = None));
    simpl.
  - rewrite (getitem_Some _ _ _ Hd). simpl.
    rewrite IH by (intros; apply Hl; by right).
    rewrite count_compatible_filter, Hd. simpl. f_equal. lia.
  - apply IH. intros; apply Hl; by right.
Qed.

Section stable_sort.
Context {A : Type}.
Implicit Types (item : A * Z) (l : list (A * Z)).

Lemma insert_desc_perm item l : Permutation (insert_desc item l) (item :: l).
Proof.
  induction l as [|other l IH]; simpl; [done|].
  destruct (item.2 <? other.2); [|done].
  rewrite IH. apply perm_swap.
Qed.

Lemma sort_desc_perm l : Permutation (sort_desc l) l.
Proof.
  induction l as [|item l IH]; simpl; [done|].
  rewrite insert_desc_perm. by constructor.
Qed.

Lemma insert_desc_sorted item l :
  StronglySorted desc l → StronglySorted desc (insert_desc item l).
Proof.
  induction 1 as [|other l Hs IH Hall]; simpl.
  { repeat constructor. }
  destruct (item.2 <? other.2) eqn:Hlt.
  - constructor; [done|].
    eapply Permutation_Forall; [symmetry; apply insert_desc_perm|].
    constructor; [|done]. unfold desc. lia.
  - constructor; [by constructor|].
    constructor; [unfold desc; lia|].
    eapply Forall_impl; [exact Hall|]. unfold desc. intros q Hq. simpl in Hq. lia.
Qed.

Lemma sort_desc_sorted l : StronglySorted desc (sort_desc l).
Proof.
  induction l as [|item l IH]; simpl; [constructor|].
  by apply insert_desc_sorted.
Qed.

(** Stability: the items of any one key come out in the order they had. *)
Lemma insert_desc_stable k item l :
  List.filter (λ p : A * Z, p.2 =? k) (insert_desc item l)
  = List.filter (λ p : A * Z, p.2 =? k) (item :: l).
Proof.
  induction l as [|other l IH]; [done|].
  simpl insert_desc. destruct (item.2 <? other.2) eqn:Hlt; [|done].
  simpl in *. rewrite IH.
  destruct (item.2 =? k) eqn:Hi, (other.2 =? k) eqn:Ho; try done. lia.
Qed.

Lemma sort_desc_stable k l :
  List.filter (λ p : A * Z, p.2 =? k) (sort_desc l)
  = List.filter (λ p : A * Z, p.2 =? k) l.
Proof.
  induction l as [|item l IH]; [done|].
  simpl sort_desc. rewrite insert_desc_stable. simpl. by rewrite IH.
Qed.

Variable g : A → Z.

Lemma decorate_decorated (xs : list A) : decorated g (map (λ x, (x, g x)) xs).
Proof. apply List.Forall_forall. intros p (x & <- & _)%in_map_iff. done. Qed.

Lemma undecorate_sorted l :
  decorated g l → StronglySorted desc l →
  StronglySorted (λ x y, g y ≤ g x) (map fst l).
Proof.
  intros Hd Hs. induction Hs as [|p l Hs IH Hall]; simpl; [constructor|].
  inversion Hd as [|? ? Hp Hd']; subst.
  constructor; [by apply IH|].
  rewrite List.Forall_map. rewrite List.Forall_forall in Hall, Hd'. apply List.Forall_forall.
  intros q Hq. unfold desc in Hall.
  rewrite <- Hp, <- (Hd' q Hq). by apply Hall.
Qed.

Lemma undecorate_filter k l :
  decorated g l →
  List.filter (λ x, g x =? k) (map fst l)
  = map fst (List.filter (λ p : A * Z, p.2 =? k) l).
Proof.
  induction 1 as [|p l Hp Hd IH]; [done|].
  simpl. rewrite <- Hp, IH. by destruct (p.2 =? k).
Qed.

Lemma sorted_reverse_spec (key : A → res Z) (xs : list A) :
  (∀ x, In x xs → key x = Ret (g x)) →
  ∃ ys, sorted_reverse key xs = Ret ys
    ∧ Permutation ys xs
    ∧ StronglySorted (λ x y, g y ≤ g x) ys
    ∧ ∀ k, List.filter (λ x, g x =? k) ys = List.filter (λ x, g x =? k) xs.
Proof.
  intros Hkey. unfold sorted_reverse.
  rewrite (mapM_ext_in _ (λ x, (x, g x))); last first.
  { intros x Hx. by rewrite (Hkey x Hx). }
  simpl. eexists. split; [done|].
  assert (map fst (map (λ x, (x, g x)) xs) = xs) as Hfst.
  { rewrite map_map. simpl. apply map_id. }
  assert (decorated g (sort_desc (map (λ x, (x, g x)) xs))) as Hdec.
  { eapply Permutation_Forall; [symmetry; apply sort_desc_perm|].
    apply decorate_decorated. }
  split; [|split].
  - rewrite <- Hfst at 2. apply Permutation_map, sort_desc_perm.
  - apply undecorate_sorted; [done|apply sort_desc_sorted].
  - intros k. rewrite (undecorate_filter _ _ Hdec), sort_desc_stable.
    rewrite <- (undecorate_filter _ _ (decorate_decorated xs)). by rewrite Hfst.
Qed.
End stable_sort.

(** C5: the value ordering returns the values of the variable's domain, in
    descending order of the compatibility score of the design, values of equal
    score in the order the domain has them. *)
Theorem prioritize_domain_values_lcv (ds : gmap Z (list Z)) (variable : Z)
    (assignment : gmap Z Z) (d : list Z) :
  wf_domains ds →
  ds !! variable = Some d →
  ∃ values, prioritize_domain_values ds variable assignment = Ret values
    ∧ Permutation values d
    ∧ StronglySorted (λ v w, lcv_score ds variable assignment w
                             ≤ lcv_score ds variable assignment v) values
    ∧ ∀ score, List.filter (λ v, lcv_score ds variable assignment v =? score) values
               = List.filter (λ v, lcv_score ds variable assignment v =? score) d.
Proof.
  intros Hwf Hd. unfold prioritize_domain_values.
  rewrite (getitem_Some _ _ _ Hd). simpl.
  apply sorted_reverse_spec. intros v _. by apply calculate_lcv_score.
Qed.

(** ** Arc revision *)

Lemma mem_In v l : mem v l = true ↔ In v l.
Proof.
  unfold mem. rewrite existsb_exists. split.
  - intros (w & Hw & ->%Z.eqb_eq). done.
  - intros Hv. exists v. by rewrite Z.eqb_refl.
Qed.

(** The doubled quantifier of line 98 says no more than: [value_x] does not
    occur in the domain of [variable_y]. *)
Lemma no_compatible_mem v dy : no_compatible v dy = negb (mem v dy).
Proof.
  unfold no_compatible. fold (mem v dy).
  destruct (mem v dy) eqn:Hm; simpl.
  - destruct dy as [|w dy]; [done|]. done.
  - induction dy as [|? ? IH] in |- *; simpl; done.
Qed.

Lemma list_remove_app kept v rest :
  ¬ In v kept → list_remove v (kept ++ v :: rest) = Ret (kept ++ rest).
Proof.
  induction kept as [|w kept IH]; intros Hv; simpl.
  - by rewrite Z.eqb_refl.
  - destruct (v =? w) eqn:Hvw.
    + exfalso. apply Hv. left. lia.
    + rewrite IH; [done|]. intros ?. apply Hv. by right.
Qed.

Lemma revise_loop_ne x y dy kept values ds updated :
  x ≠ y →
  ds !! y = Some dy →
  ds !! x = Some (kept ++ values) →
  (∀ v, In v kept → mem v dy = true) →
  revise_loop x y values ds updated
  = Ret (updated || negb (forallb (λ v, mem v dy) values),
         <[x := kept ++ List.filter (λ v, mem v dy) values]> ds).
Proof.
  intros Hxy. revert kept ds updated.
  induction values as [|v rest IH]; intros kept ds updated Hy Hx Hkept; simpl.
  - rewrite orb_false_r, insert_id; [done|]. by rewrite app_nil_r in *.
  - rewrite (getitem_Some _ _ _ Hy). simpl. rewrite no_compatible_mem.
    destruct (mem v dy) eqn:Hv; simpl.
    + rewrite (IH (kept ++ [v])); try done.
      * by rewrite <- app_assoc.
      * by rewrite <- app_assoc.
      * intros w [Hw|[<-|[]]]%in_app_or; auto.
    + rewrite (getitem_Some _ _ _ Hx). simpl.
      rewrite list_remove_app; last first.
      { intros Hin. apply Hkept in Hin. congruence. }
      simpl. rewrite (IH kept).
      * by rewrite insert_insert_eq, orb_true_r.
      * by rewrite lookup_insert_ne.
      * by rewrite lookup_insert_eq.
      * done.
Qed.

Lemma revise_loop_same x dx values ds updated :
  ds !! x = Some dx →
  (∀ v, In v values → mem v dx = true) →
  revise_loop x x values ds updated = Ret (updated, ds).
Proof.
  intros Hx. revert updated.
  induction values as [|v rest IH]; intros updated Hvals; simpl; [done|].
  rewrite (getitem_Some _ _ _ Hx). simpl. rewrite no_compatible_mem.
  rewrite Hvals by (by left). simpl. apply IH. intros; apply Hvals; by right.
Qed.

Lemma filter_all_true {A : Type} (f : A → bool) (l : list A) :
  forallb f l = true → List.filter f l = l.
Proof.
  induction l as [|x l IH]; simpl; [done|].
  intros [-> Hl]%andb_true_iff. by rewrite IH.
Qed.

Lemma forallb_mem_self l : forallb (λ v, mem v l) l = true.
Proof. apply forallb_forall. intros v Hv. by apply mem_In. Qed.

(** What [revise_domains] does: it keeps in the domain of [variable_x] the
    values that occur in the domain of [variable_y], in their order, and
    reports whether some value went. *)
Lemma revise_domains_spec ds x y dx dy :
  ds !! x = Some dx →
  ds !! y = Some dy →
  revise_domains ds x y
  = Ret (negb (forallb (λ v, mem v dy) dx),
         <[x := List.filter (λ v, mem v dy) dx]> ds).
Proof.
  intros Hx Hy. unfold revise_domains. rewrite (getitem_Some _ _ _ Hx). simpl.
  destruct (decide (x = y)) as [->|Hxy].
  - assert (dy = dx) as -> by congruence.
    rewrite (revise_loop_same y dx) by (done || intros; by apply mem_In).
    rewrite forallb_mem_self, filter_all_true by apply forallb_mem_self.
    by rewrite insert_id.
  - by rewrite (revise_loop_ne x y dy []).
Qed.

Lemma filter_sublist_of (f : Z → bool) (l : list Z) : List.filter f l `sublist_of` l.
Proof.
  induction l as [|x l IH]; simpl; [constructor|].
  destruct (f x); by constructor.
Qed.

Lemma filter_shorter {A : Type} (f : A → bool) (l : list A) :
  forallb f l = false → (length (List.filter f l) < length l)%nat.
Proof.
  induction l as [|x l IH]; simpl; [done|].
  destruct (f x); simpl.
  - intros H. apply IH in H. lia.
  - intros _. pose proof (List.filter_length_le f l). lia.
Qed.

(** ** Stores that only lose values *)

Lemma shrinks_refl ds : shrinks ds ds.
Proof. intros v. destruct (ds !! v); by constructor. Qed.

Lemma shrinks_trans ds1 ds2 ds3 : shrinks ds1 ds2 → shrinks ds2 ds3 → shrinks ds1 ds3.
Proof.
  intros H12 H23 v. specialize (H12 v). specialize (H23 v).
  destruct H23 as [d3 d2 H32|]; inversion H12 as [? d1 H21|]; subst; constructor.
  by etrans.
Qed.

Lemma shrinks_insert ds x d d' :
  ds !! x = Some d → d' `sublist_of` d → shrinks ds (<[x := d']> ds).
Proof.
  intros Hx Hsub v. destruct (decide (x = v)) as [<-|Hne].
  - rewrite lookup_insert_eq, Hx. by constructor.
  - rewrite lookup_insert_ne by done. apply shrinks_refl.
Qed.

Lemma shrinks_is_Some ds ds' v : shrinks ds ds' → is_Some (ds !! v) → is_Some (ds' !! v).
Proof. intros H [d Hd]. specialize (H v). rewrite Hd in H. inversion H. eauto. Qed.

Lemma total_size_insert ds x d d' :
  ds !! x = Some d →
  (total_size (<[x := d']> ds) + length d = total_size ds + length d')%nat.
Proof.
  intros Hx. unfold total_size.
  rewrite (map_fold_delete_L _ _ x d ds); [|intros; lia|done].
  rewrite <- (insert_delete_eq ds).
  rewrite map_fold_insert_L; [lia|intros; lia|apply lookup_delete_eq].
Qed.

(** ** The AC-3 loop *)

Lemma arcs_in_store_shrinks ds ds' arcs :
  shrinks ds ds' → arcs_in_store ds arcs → arcs_in_store ds' arcs.
Proof. intros Hs Ha c Hc. destruct (Ha c Hc). split; by eapply shrinks_is_Some. Qed.

Lemma requeue_length cs x y : (length (requeue cs x y) ≤ length cs)%nat.
Proof. unfold requeue. rewrite length_map. apply List.filter_length_le. Qed.

Lemma requeue_in_store ds cs x y :
  arcs_in_store ds cs → is_Some (ds !! x) → arcs_in_store ds (requeue cs x y).
Proof.
  intros Hcs Hx c. unfold requeue. rewrite in_map_iff.
  intros (c0 & <- & [Hc0 _]%filter_In). simpl. split; [|done]. by apply Hcs.
Qed.

(** With every arc in the store and the fuel of [ac3_fuel], the loop returns:
    a round that removes a value puts back at most [len(constraints)] arcs. *)
Lemma ac3_loop_total cs fuel :
  ∀ queue ds,
    arcs_in_store ds cs →
    arcs_in_store ds queue →
    (length queue + total_size ds * length cs < fuel)%nat →
    ∃ ok ds', ac3_loop fuel cs queue ds = Ret (ok, ds').
Proof.
  induction fuel as [|fuel IH]; intros queue ds Hcs Hq Hfuel; [lia|].
  destruct queue as [|[x y] queue]; simpl.
  { by exists true, ds. }
  destruct (Hq (x, y) (or_introl eq_refl)) as [[dx Hx] [dy Hy]]. simpl in *.
  rewrite (revise_domains_spec _ _ _ _ _ Hx Hy). simpl.
  set (dx' := List.filter (λ v, mem v dy) dx).
  assert (shrinks ds (<[x := dx']> ds)) as Hshr.
  { apply (shrinks_insert _ _ dx); [done|apply filter_sublist_of]. }
  destruct (forallb (λ v, mem v dy) dx) eqn:Hall; simpl.
  - (* nothing removed *)
    assert (<[x := dx']> ds = ds) as ->.
    { subst dx'. rewrite filter_all_true by done. by apply insert_id. }
    apply IH; [done| |lia]. intros c Hc. apply Hq. by right.
  - (* some value removed *)
    rewrite (getitem_Some _ _ dx') by apply lookup_insert_eq. simpl.
    destruct dx' as [|w dx''] eqn:Hdx'.
    { by exists false, (<[x := []]> ds). }
    pose proof (filter_shorter _ _ Hall) as Hlen. fold dx' in Hlen.
    pose proof (total_size_insert ds x dx dx' Hx) as Hsize.
    pose proof (requeue_length cs x y) as Hre.
    rewrite <- Hdx' in *.
    apply IH.
    + by eapply arcs_in_store_shrinks.
    + eapply arcs_in_store_shrinks; [done|].
      intros c [Hc|Hc]%in_app_or; [apply Hq; by right|].
      apply (requeue_in_store ds cs x y); [done|by eexists|done].
    + rewrite length_app. nia.
Qed.

Lemma revise_domains_shrinks ds x y changed ds' :
  revise_domains ds x y = Ret (changed, ds') → shrinks ds ds'.
Proof.
  destruct (ds !! x) as [dx|] eqn:Hx; [destruct (ds !! y) as [dy|] eqn:Hy|].
  - rewrite (revise_domains_spec _ _ _ _ _ Hx Hy). intros [= _ <-].
    apply (shrinks_insert _ _ dx); [done|apply filter_sublist_of].
  - unfold revise_domains. rewrite (getitem_Some _ _ _ Hx).
    destruct dx as [|v dx]; simpl.
    + intros [= _ <-]. apply shrinks_refl.
    + unfold getitem. by rewrite Hy.
  - unfold revise_domains, getitem. by rewrite Hx.
Qed.

(** Whatever the store, a run that returns has only removed values, and when
    it returns false, it has just emptied a domain. *)
Lemma ac3_loop_sound cs fuel :
  ∀ queue ds ok ds',
    ac3_loop fuel cs queue ds = Ret (ok, ds') →
    shrinks ds ds' ∧ (ok = false → ∃ v, ds' !! v = Some []).
Proof.
  induction fuel as [|fuel IH]; intros queue ds ok ds'; simpl; [done|].
  destruct queue as [|[x y] queue].
  { intros [= <- <-]. split; [apply shrinks_refl|done]. }
  intros ([changed ds1] & Hrev%revise_domains_shrinks & Hrun)%bind_Ret_inv.
  destruct changed.
  - apply bind_Ret_inv in Hrun as (dx & Hget & Hrun).
    unfold getitem in Hget. destruct (ds1 !! x) as [d|] eqn:Hx; [|done].
    injection Hget as ->. destruct dx as [|w dx].
    + injection Hrun as <- <-. split; [done|]. intros _. by exists x.
    + apply IH in Hrun as [Hs He]. split; [by eapply shrinks_trans|done].
  - apply IH in Hrun as [Hs He]. split; [by eapply shrinks_trans|done].
Qed.

(** C7: from a store in which every constrained variable has a domain, the
    AC-3 pass returns; and whenever it returns, no domain has grown (each
    final domain results from the initial one by removing values), and if it
    returns failure, some variable's domain is empty. *)
Theorem ac3_monotone (self : csp) :
  (arcs_in_store (domains self) (constraints self) →
   ∃ ok self', apply_arcconsistency_algorithm self = Ret (ok, self'))
  ∧ ∀ ok self',
      apply_arcconsistency_algorithm self = Ret (ok, self') →
      constraints self' = constraints self
      ∧ (∀ v, is_Some (domains self' !! v) ↔ is_Some (domains self !! v))
      ∧ (∀ v d d', domains self !! v = Some d → domains self' !! v = Some d' →
           d' `sublist_of` d ∧ d' ⊆ d ∧ (length d' ≤ length d)%nat)
      ∧ (ok = false → ∃ v, domains self' !! v = Some []).
Proof.
  unfold apply_arcconsistency_algorithm. split.
  - intros Harcs.
    destruct (ac3_loop_total (constraints self) (ac3_fuel self) (constraints self)
                (domains self)) as (ok & ds' & Hrun); try done.
    { unfold ac3_fuel. lia. }
    rewrite Hrun. by eexists _, _.
  - intros ok self' ([ok' ds'] & [Hs He]%ac3_loop_sound & [= <- <-])%bind_Ret_inv.
    cbn [domains constraints]. split; [done|]. split; [|split; [|done]].
    + intros v. specialize (Hs v). inversion Hs; split; intros [? ?]; eauto; congruence.
    + intros v d d' Hd Hd'. specialize (Hs v). rewrite Hd, Hd' in Hs.
      inversion Hs as [? ? Hsub|]; subst.
      split; [done|]. split; [by apply sublist_subseteq|by apply sublist_length].
Qed.

(** ** The store after [input_reader] *)

Lemma range_length n : length (range n) = Z.to_nat n.
Proof. unfold range. by rewrite length_map, length_seq. Qed.

Lemma pairs_fst (r l : list Z) : (map (λ i, (i, r)) l).*1 = l.
Proof. induction l as [|i l IH]; [done|]. csimpl. f_equal. apply IH. Qed.

Lemma init_domains_fst n : (map (λ i, (i, range n)) (range n)).*1 = range n.
Proof. apply pairs_fst. Qed.

Lemma lookup_init_domains n v :
  init_domains n !! v = if bool_decide (0 ≤ v < n) then Some (range n) else None.
Proof.
  unfold init_domains. case_bool_decide as Hv.
  - apply elem_of_list_to_map_1.
    + rewrite init_domains_fst. apply NoDup_ListNoDup, NoDup_range.
    + apply list_elem_of_In, in_map_iff. exists v. split; [done|]. by apply in_range.
  - apply not_elem_of_list_to_map_1. rewrite init_domains_fst.
    rewrite list_elem_of_In, in_range. done.
Qed.

Lemma size_init_domains n : size (init_domains n) = Z.to_nat n.
Proof.
  unfold init_domains. rewrite map_size_list_to_map.
  - by rewrite length_map, range_length.
  - rewrite init_domains_fst. apply NoDup_ListNoDup, NoDup_range.
Qed.

Lemma wf_init_domains n : wf_domains (init_domains n).
Proof.
  intros v Hv. unfold len_dict in Hv. rewrite size_init_domains in Hv.
  rewrite lookup_init_domains, bool_decide_eq_true_2 by lia. eauto.
Qed.

Lemma in_init_constraints n c :
  In c (init_constraints n) ↔ 0 ≤ c.1 < n ∧ 0 ≤ c.2 < n ∧ c.1 ≠ c.2.
Proof.
  unfold init_constraints. rewrite in_flat_map. split.
  - intros (i & Hi%in_range & (j & Hj%in_range & Hc)%in_flat_map).
    case_bool_decide; [|done]. destruct Hc as [<-|[]]. done.
  - intros (H1 & H2 & Hne). exists c.1. split; [by apply in_range|].
    apply in_flat_map. exists c.2. split; [by apply in_range|].
    rewrite bool_decide_eq_true_2 by done. left. by destruct c.
Qed.

(** On the fresh store every arc finds its two domains equal, so no round of
    the loop removes anything. *)
Lemma ac3_loop_fresh n cs fuel :
  ∀ queue,
    (∀ c, In c queue → 0 ≤ c.1 < n ∧ 0 ≤ c.2 < n) →
    (length queue < fuel)%nat →
    ac3_loop fuel cs queue (init_domains n) = Ret (true, init_domains n).
Proof.
  induction fuel as [|fuel IH]; intros queue Hq Hfuel; [lia|].
  destruct queue as [|[x y] queue]; simpl; [done|].
  destruct (Hq (x, y) (or_introl eq_refl)) as [Hx Hy]. simpl in *.
  rewrite (revise_domains_spec _ x y (range n) (range n));
    try (rewrite lookup_init_domains, bool_decide_eq_true_2 by done; done).
  rewrite forallb_mem_self. simpl.
  rewrite filter_all_true by apply forallb_mem_self.
  rewrite insert_id by (rewrite lookup_init_domains, bool_decide_eq_true_2 by done; done).
  apply IH; [|lia]. intros c Hc. apply Hq. by right.
Qed.

Lemma apply_arcconsistency_fresh n :
  apply_arcconsistency_algorithm (Csp (init_domains n) (init_constraints n))
  = Ret (true, Csp (init_domains n) (init_constraints n)).
Proof.
  unfold apply_arcconsistency_algorithm. cbn [domains constraints].
  rewrite (ac3_loop_fresh n); [done| |unfold ac3_fuel; cbn [domains constraints]; lia].
  intros c Hc%in_init_constraints. tauto.
Qed.

(** C10: on the store that [input_reader] builds, whatever the board size,
    the AC-3 pass returns true and leaves every domain as it was: it removes
    no value and never reports failure. *)
Theorem ac3_identity_on_fresh_store (n : Z) :
  ∃ self', apply_arcconsistency_algorithm (Csp (init_domains n) (init_constraints n))
           = Ret (true, self')
    ∧ domains self' = init_domains n
    ∧ ∀ v, 0 ≤ v < n → domains self' !! v = Some (range n).
Proof.
  eexists. split; [apply apply_arcconsistency_fresh|]. split; [done|].
  intros v Hv. cbn [domains]. by rewrite lookup_init_domains, bool_decide_eq_true_2.
Qed.

(** ** Backtracking search *)

Lemma mapM_mrv_key_fst ds l keyed :
  mapM (mrv_key ds) l = Ret keyed → map fst keyed = l.
Proof.
  revert keyed. induction l as [|v l IH]; intros keyed; simpl.
  { by intros [= <-]. }
  intros (y & Hy & (ys & Hys & [= <-])%bind_Ret_inv)%bind_Ret_inv.
  apply bind_Ret_inv in Hy as (d & _ & [= <-]).
  simpl. f_equal. by apply IH.
Qed.

(** The variable chosen is a variable of the store that has no entry yet. *)
Lemma select_unassigned_fresh ds a v :
  select_unassigned ds a = Ret v → 0 ≤ v < len_dict ds ∧ a !! v = None.
Proof.
  unfold select_unassigned.
  destruct (mapM (mrv_key ds) (unassigned_variables ds a)) as [keyed| |] eqn:Hk;
    simpl; try done.
  apply mapM_mrv_key_fst in Hk.
  destruct keyed as [|item keyed]; simpl; [done|]. intros [= <-].
  destruct (min_from_least item keyed) as (best & Hin & -> & _).
  apply in_unassigned_variables. rewrite <- Hk. by apply in_map.
Qed.

Section search.
Variable rec : gmap Z Z → res (option (gmap Z Z) * gmap Z Z).
(** What the loop needs of the recursive call. *)
Hypothesis rec_restores : ∀ a a', rec a = Ret (None, a') → a' = a.
Hypothesis rec_aliases : ∀ a s a', rec a = Ret (Some s, a') → s = a'.

Lemma try_values_restores variable values a a' :
  a !! variable = None →
  try_values rec variable values a = Ret (None, a') → a' = a.
Proof.
  intros Hfresh. induction values as [|v values IH]; simpl.
  { by intros [= <-]. }
  destruct (check_consistency variable v a); [|done].
  destruct (rec (<[variable := v]> a)) as [[[s|] b]| |] eqn:Hrec; simpl; try done.
  apply rec_restores in Hrec as ->.
  unfold delitem. rewrite lookup_insert_eq. simpl.
  by rewrite delete_insert_id.
Qed.

Lemma try_values_aliases variable values a s a' :
  a !! variable = None →
  try_values rec variable values a = Ret (Some s, a') → s = a'.
Proof.
  intros Hfresh. induction values as [|v values IH]; simpl; [done|].
  destruct (check_consistency variable v a); [|done].
  destruct (rec (<[variable := v]> a)) as [[[s0|] b]| |] eqn:Hrec; simpl; try done.
  - apply rec_aliases in Hrec as ->. by intros [= <- <-].
  - apply rec_restores in Hrec as ->.
    unfold delitem. rewrite lookup_insert_eq. simpl.
    by rewrite delete_insert_id.
Qed.
End search.

Lemma attempt_solution_frame fuel ds :
  ∀ a, (∀ a', attempt_solution fuel ds a = Ret (None, a') → a' = a)
       ∧ (∀ s a', attempt_solution fuel ds a = Ret (Some s, a') → s = a').
Proof.
  induction fuel as [|fuel IH]; intros a; simpl; [done|].
  destruct (len_dict a =? len_dict ds).
  { split; [done|]. by intros s a' [= <- <-]. }
  destruct (select_unassigned ds a) as [v| |] eqn:Hsel; simpl; try done.
  apply select_unassigned_fresh in Hsel as [_ Hfresh].
  destruct (prioritize_domain_values ds v a) as [values| |]; simpl; try done.
  split.
  - intros a'. apply try_values_restores; [apply IH|done].
  - intros s a'. apply try_values_aliases; [apply IH|apply IH|done].
Qed.

(** C6: when a call of [attempt_solution] returns failure, the assignment it
    was given holds on return exactly the entries it held on entry. *)
Theorem attempt_solution_failure_restores (fuel : nat) (ds : gmap Z (list Z))
    (a a' : gmap Z Z) :
  attempt_solution fuel ds a = Ret (None, a') → a' = a.
Proof. apply attempt_solution_frame. Qed.

(** On success the value returned is the caller's dict itself. *)
Lemma attempt_solution_success_aliases fuel ds a s a' :
  attempt_solution fuel ds a = Ret (Some s, a') → s = a'.
Proof. apply attempt_solution_frame. Qed.

(** *** The fuel of the search is enough *)

Lemma getitem_fuel {V : Type} (d : gmap Z V) k : getitem d k ≠ OutOfFuel.
Proof. unfold getitem. by destruct (d !! k). Qed.

Lemma bind_fuel {A B : Type} (m : res A) (f : A → res B) :
  m ≠ OutOfFuel → (∀ a, m = Ret a → f a ≠ OutOfFuel) → m ≫= f ≠ OutOfFuel.
Proof. destruct m as [a| |]; simpl; [|done..]. intros _ Hf. by apply Hf. Qed.

Lemma mapM_fuel {A B : Type} (f : A → res B) l :
  (∀ x, f x ≠ OutOfFuel) → mapM f l ≠ OutOfFuel.
Proof.
  intros Hf. induction l as [|x l IH]; simpl; [done|].
  apply bind_fuel; [done|]. intros y _. by apply bind_fuel.
Qed.

Lemma foldM_fuel {A S : Type} (f : S → A → res S) l s :
  (∀ s x, f s x ≠ OutOfFuel) → foldM f l s ≠ OutOfFuel.
Proof.
  intros Hf. revert s. induction l as [|x l IH]; intros s; simpl; [done|].
  by apply bind_fuel.
Qed.

Lemma select_unassigned_fuel ds a : select_unassigned ds a ≠ OutOfFuel.
Proof.
  unfold select_unassigned. apply bind_fuel.
  - apply mapM_fuel. intros v. unfold mrv_key.
    apply bind_fuel; [apply getitem_fuel|done].
  - intros keyed _. by destruct keyed.
Qed.

Lemma prioritize_domain_values_fuel ds v a :
  prioritize_domain_values ds v a ≠ OutOfFuel.
Proof.
  unfold prioritize_domain_values. apply bind_fuel; [apply getitem_fuel|].
  intros d _. unfold sorted_reverse. apply bind_fuel; [|done].
  apply mapM_fuel. intros x. apply bind_fuel; [|done].
  unfold calculate_lcv. apply foldM_fuel. intros c u.
  destruct (_ && _); [|done]. apply bind_fuel; [apply getitem_fuel|done].
Qed.

Lemma try_values_fuel rec variable values a :
  (∀ b b', rec b = Ret (None, b') → b' = b) →
  (∀ v, rec (<[variable := v]> a) ≠ OutOfFuel) →
  a !! variable = None →
  try_values rec variable values a ≠ OutOfFuel.
Proof.
  intros Hrestore Hrec Hfresh. induction values as [|v values IH]; simpl; [done|].
  destruct (check_consistency variable v a); [|done].
  specialize (Hrec v).
  destruct (rec (<[variable := v]> a)) as [[[s|] b]| |] eqn:Hr; simpl; try done.
  apply Hrestore in Hr as ->.
  unfold delitem. rewrite lookup_insert_eq. simpl. by rewrite delete_insert_id.
Qed.

Lemma filter_length_lt {A : Type} (f g : A → bool) (l : list A) (x : A) :
  (∀ y, g y = true → f y = true) →
  In x l → f x = true → g x = false →
  (length (List.filter g l) < length (List.filter f l))%nat.
Proof.
  intros Hgf. induction l as [|y l IH]; simpl; [done|].
  assert (length (List.filter g l) ≤ length (List.filter f l))%nat as Hle.
  { clear IH. induction l as [|z l IHl]; simpl; [done|].
    destruct (g z) eqn:Hg; [rewrite (Hgf z Hg); simpl; lia|].
    destruct (f z); simpl; lia. }
  intros [->|Hin] Hf Hg.
  - rewrite Hf, Hg. simpl. lia.
  - specialize (IH Hin Hf Hg).
    destruct (g y) eqn:Hgy; [rewrite (Hgf y Hgy); simpl; lia|].
    destruct (f y); simpl; lia.
Qed.

Lemma unassigned_variables_insert ds a variable v :
  0 ≤ variable < len_dict ds → a !! variable = None →
  (length (unassigned_variables ds (<[variable := v]> a))
   < length (unassigned_variables ds a))%nat.
Proof.
  intros Hr Hfresh. unfold unassigned_variables.
  apply (filter_length_lt _ _ _ variable).
  - intros y Hy%bool_decide_eq_true. apply bool_decide_eq_true.
    destruct (decide (variable = y)) as [->|Hne].
    + by rewrite lookup_insert_eq in Hy.
    + by rewrite lookup_insert_ne in Hy.
  - by apply in_range.
  - by apply bool_decide_eq_true.
  - apply bool_decide_eq_false. by rewrite lookup_insert_eq.
Qed.

(** One level of recursion per unassigned variable, and the last call. *)
Lemma attempt_solution_fuel fuel ds :
  ∀ a, (length (unassigned_variables ds a) < fuel)%nat →
       attempt_solution fuel ds a ≠ OutOfFuel.
Proof.
  induction fuel as [|fuel IH]; intros a Hfuel; simpl; [lia|].
  destruct (len_dict a =? len_dict ds); [done|].
  apply bind_fuel; [apply select_unassigned_fuel|].
  intros v [Hr Hfresh]%select_unassigned_fresh.
  apply bind_fuel; [apply prioritize_domain_values_fuel|].
  intros values _. apply try_values_fuel; [apply attempt_solution_frame| |done].
  intros w. apply IH.
  pose proof (unassigned_variables_insert ds a v w Hr Hfresh). lia.
Qed.

Lemma unassigned_variables_length ds a :
  (length (unassigned_variables ds a) ≤ size ds)%nat.
Proof.
  unfold unassigned_variables.
  etrans; [apply List.filter_length_le|].
  rewrite range_length. unfold len_dict. lia.
Qed.

(** The entry point never runs out of fuel, whatever the board size. *)
Lemma solve_fuel (n : Z) : solve n ≠ OutOfFuel.
Proof.
  unfold solve, search_phase. rewrite apply_arcconsistency_fresh.
  cbn [mbind res_mbind res_bind domains].
  apply bind_fuel; [|by intros [? ?]].
  apply attempt_solution_fuel. unfold search_fuel.
  pose proof (unassigned_variables_length (init_domains n) ∅). lia.
Qed.

(** ** Solutions *)

Lemma valid_placementb_sound sol : valid_placementb sol = true → valid_placement sol.
Proof.
  unfold valid_placementb. rewrite forallb_forall.
  intros Hall vi ri vj rj Hi Hj Hne.
  apply elem_of_map_to_list, list_elem_of_In in Hi, Hj.
  specialize (Hall _ Hi). rewrite forallb_forall in Hall.
  specialize (Hall _ Hj). simpl in Hall.
  apply orb_true_iff in Hall as [Heq|[H1 H2]%andb_true_iff]; [lia|].
  apply negb_true_iff in H1, H2. lia.
Qed.

Lemma completeb_sound n sol : completeb n sol = true → complete n sol.
Proof.
  unfold completeb. intros [Hsize Hall]%andb_true_iff.
  split; [lia|]. intros v Hv%in_range.
  rewrite forallb_forall in Hall. by apply Hall, bool_decide_eq_true in Hv.
Qed.

Lemma solution_ok_sound n :
  solution_ok n = true →
  ∃ sol, solve n = Ret (Bound (Some sol)) ∧ complete n sol ∧ valid_placement sol.
Proof.
  unfold solution_ok. destruct (solve n) as [[|[sol|]]| |]; try done.
  intros [Hc Hv]%andb_true_iff. exists sol.
  split; [done|]. split; [by apply completeb_sound|by apply valid_placementb_sound].
Qed.

(** C1: for the board sizes 0, 1, 4, 5 and 8 the solving core returns an
    assignment with one row for each of the [n] columns and no other entry,
    in which no two queens share a row or a diagonal. *)
Theorem solve_finds_placement (n : Z) :
  In n [0; 1; 4; 5; 8] →
  ∃ sol, solve n = Ret (Bound (Some sol)) ∧ complete n sol ∧ valid_placement sol.
Proof.
  intros Hn. apply solution_ok_sound.
  repeat (destruct Hn as [<-|Hn]; [by vm_compute|]). destruct Hn.
Qed.

(** C2: for the board sizes 2 and 3 the AC-3 pass lets the search run, and the
    search comes back from the empty assignment with failure. *)
Theorem solve_2_3_fail : solve 2 = Ret (Bound None) ∧ solve 3 = Ret (Bound None).
Proof. split; by vm_compute. Qed.

(** ** The entry point *)

(** C9: the solution depends on the board size alone. Whatever state an
    earlier run left in the solver, and whatever positions were read, two runs
    on boards of one size compute the same [solution_assignment], which is
    that of [solve], print the same lines and show the same final positions. *)
Theorem solution_depends_on_size_only (self1 self2 : csp) (q1 q2 : list Z) :
  length q1 = length q2 →
  search_phase (input_reader self1 q1).2 = solve (len_list q1)
  ∧ search_phase (input_reader self2 q2).2 = solve (len_list q1)
  ∧ map without_initial (resolve_nqueens self1 q1).1
    = map without_initial (resolve_nqueens self2 q2).1
  ∧ (resolve_nqueens self1 q1).2 = (resolve_nqueens self2 q2).2.
Proof.
  intros Hlen. unfold resolve_nqueens, input_reader, resolve_from, solve, len_list.
  cbn [snd]. rewrite <- Hlen. split; [done|]. split; [done|].
  destruct (search_phase _) as [[|[sol|]]| |]; try done.
  destruct (final_positions sol _) as [ps [[]| |]]; try done.
  cbn [fst snd]. split; [|done].
  rewrite !map_app. cbn [map without_initial]. done.
Qed.



(** ** Arc revision against the design *)

(** C3, on the code: with the domains [[0; 1]] for [x] and [[0]] for [y], the
    revision keeps 0, for which [y] has no differing value, and removes 1, for
    which [y] has the differing value 0. *)
Theorem revise_domains_keeps_equal_values :
  let ds : gmap Z (list Z) := <[0 := [0; 1]]> (<[1 := [0]]> ∅) in
  revise_domains ds 0 1 = Ret (true, <[0 := [0]]> ds)
  ∧ no_differing_value 0 [0]
  ∧ ¬ no_differing_value 1 [0].
Proof.
  split; [by vm_compute|]. split.
  - intros w [<-|[]]. done.
  - intros H. specialize (H 0 (or_introl eq_refl)). lia.
Qed.

(** ** Instances *)

Lemma wf_uneven_store : wf_domains uneven_store.
Proof.
  intros v Hv. change (len_dict uneven_store) with 4 in Hv.
  assert (v = 0 ∨ v = 1 ∨ v = 2 ∨ v = 3) as [-> | [-> | [-> | ->]]] by lia;
    vm_compute; eauto.
Defined.

Lemma select_unassigned_mrv_witness :
  wf_domains uneven_store
  ∧ (∃ u, 0 ≤ u < len_dict uneven_store ∧ (∅ : gmap Z Z) !! u = None)
  ∧ ∃ v d, select_unassigned uneven_store ∅ = Ret v
      ∧ 0 ≤ v < len_dict uneven_store ∧ (∅ : gmap Z Z) !! v = None
      ∧ uneven_store !! v = Some d
      ∧ ∀ u du, 0 ≤ u < len_dict uneven_store → (∅ : gmap Z Z) !! u = None →
          uneven_store !! u = Some du →
          (length d < length du)%nat ∨ (length d = length du ∧ u ≤ v).
Proof.
  assert (∃ u, 0 ≤ u < len_dict uneven_store ∧ (∅ : gmap Z Z) !! u = None) as Hu.
  { exists 0. split; [by vm_compute|reflexivity]. }
  split; [apply wf_uneven_store|]. split; [exact Hu|].
  apply (select_unassigned_mrv uneven_store ∅ wf_uneven_store Hu).
Defined.

Lemma prioritize_domain_values_lcv_witness :
  wf_domains uneven_store
  ∧ uneven_store !! 3 = Some [0; 1; 2]
  ∧ map (lcv_score uneven_store 3 ∅) [0; 1; 2] = [1; 2; 2]
  ∧ prioritize_domain_values uneven_store 3 ∅ = Ret [1; 2; 0]
  ∧ ∃ values, prioritize_domain_values uneven_store 3 ∅ = Ret values
      ∧ Permutation values [0; 1; 2]
      ∧ StronglySorted (λ v w, lcv_score uneven_store 3 ∅ w
                               ≤ lcv_score uneven_store 3 ∅ v) values
      ∧ ∀ score,
          List.filter (λ v, lcv_score uneven_store 3 ∅ v =? score) values
          = List.filter (λ v, lcv_score uneven_store 3 ∅ v =? score) [0; 1; 2].
Proof.
  assert (uneven_store !! 3 = Some [0; 1; 2]) as Hd by (by vm_compute).
  split; [apply wf_uneven_store|]. split; [exact Hd|].
  split; [by vm_compute|]. split; [by vm_compute|].
  apply (prioritize_domain_values_lcv uneven_store 3 ∅ [0; 1; 2]
           wf_uneven_store Hd).
Defined.

Lemma attempt_solution_failure_restores_witness :
  attempt_solution 4 (init_domains 3) ∅ = Ret (None, ∅)
  ∧ (∅ : gmap Z Z) = ∅.
Proof.
  assert (attempt_solution 4 (init_domains 3) ∅ = Ret (None, ∅))
    as Hrun by (by vm_compute).
  split; [exact Hrun|].
  apply (attempt_solution_failure_restores 4 (init_domains 3) _ _ Hrun).
Defined.

Lemma arcs_in_disjoint_store :
  arcs_in_store (domains disjoint_store) (constraints disjoint_store).
Proof. intros c [<-|[<-|[]]]; split; vm_compute; eauto. Defined.

Lemma ac3_monotone_witness :
  let self' := Csp (<[0 := []]> (<[1 := [1]]> ∅)) [(0, 1); (1, 0)] in
  arcs_in_store (domains disjoint_store) (constraints disjoint_store)
  ∧ apply_arcconsistency_algorithm disjoint_store = Ret (false, self')
  ∧ (∃ ok self'', apply_arcconsistency_algorithm disjoint_store = Ret (ok, self''))
  ∧ constraints self' = constraints disjoint_store
  ∧ (∀ v, is_Some (domains self' !! v) ↔ is_Some (domains disjoint_store !! v))
  ∧ (∀ v d d', domains disjoint_store !! v = Some d →
       domains self' !! v = Some d' →
       d' `sublist_of` d ∧ d' ⊆ d ∧ (length d' ≤ length d)%nat)
  ∧ (false = false → ∃ v, domains self' !! v = Some []).
Proof.
  intros self'.
  assert (apply_arcconsistency_algorithm disjoint_store = Ret (false, self'))
    as Hrun by (by vm_compute).
  split; [apply arcs_in_disjoint_store|]. split; [exact Hrun|].
  split; [apply (proj1 (ac3_monotone disjoint_store) arcs_in_disjoint_store)|].
  apply (proj2 (ac3_monotone disjoint_store) false self' Hrun).
Defined.

Lemma solve_finds_placement_witness :
  In 8 [0; 1; 4; 5; 8]
  ∧ ∃ sol, solve 8 = Ret (Bound (Some sol)) ∧ complete 8 sol ∧ valid_placement sol.
Proof.
  assert (In 8 [0; 1; 4; 5; 8]) as Hn by (simpl; tauto).
  split; [exact Hn|]. apply (solve_finds_placement 8 Hn).
Defined.

Lemma solution_depends_on_size_only_witness :
  length [0; 0; 0; 0] = length [1; 3; 0; 2]
  ∧ search_phase (input_reader csp_init [0; 0; 0; 0]).2 = solve (len_list [0; 0; 0; 0])
  ∧ search_phase (input_reader disjoint_store [1; 3; 0; 2]).2
    = solve (len_list [0; 0; 0; 0])
  ∧ map without_initial (resolve_nqueens csp_init [0; 0; 0; 0]).1
    = map without_initial (resolve_nqueens disjoint_store [1; 3; 0; 2]).1
  ∧ (resolve_nqueens csp_init [0; 0; 0; 0]).2
    = (resolve_nqueens disjoint_store [1; 3; 0; 2]).2.
Proof.
  split; [reflexivity|].
  apply (solution_depends_on_size_only csp_init disjoint_store
           [0; 0; 0; 0] [1; 3; 0; 2] eq_refl).
Defined.


(** * Further properties of the solver *)

(** ** Consistency check *)

Lemma check_consistency_iff var val (a : gmap Z Z) :
  check_consistency var val a = true
  ↔ ∀ v r, a !! v = Some r → r ≠ val ∧ Z.abs (r - val) ≠ Z.abs (v - var).
Proof.
  unfold check_consistency. rewrite forallb_forall. split.
  - intros Hall v r Hvr. apply elem_of_map_to_list, list_elem_of_In in Hvr.
    apply Hall in Hvr. simpl in Hvr.
    apply negb_true_iff, orb_false_elim in Hvr as [H1 H2]. lia.
  - intros Hall [v r] Hvr%list_elem_of_In%elem_of_map_to_list.
    destruct (Hall v r Hvr). simpl.
    apply negb_true_iff, orb_false_intro; lia.
Qed.

Lemma valid_placement_insert_consistent (a : gmap Z Z) v r :
  valid_placement a → a !! v = None → check_consistency v r a = true →
  valid_placement (<[v := r]> a).
Proof.
  intros Hvalid Hfresh Hcons vi ri vj rj Hi Hj Hne.
  pose proof (proj1 (check_consistency_iff v r a) Hcons) as Hall.
  apply lookup_insert_Some in Hi as [[<- <-]|[Hiv Hi]];
    apply lookup_insert_Some in Hj as [[<- <-]|[Hjv Hj]]; try done.
  - destruct (Hall vj rj Hj). lia.
  - destruct (Hall vi ri Hi). lia.
  - by apply (Hvalid vi ri vj rj).
Qed.

(** ** The search returns placements, and misses none *)

Lemma mapM_decorate_fst {A : Type} (key : A → res Z) (l : list A) keyed :
  mapM (λ x, k ← key x; Ret (x, k)) l = Ret keyed → map fst keyed = l.
Proof.
  revert keyed. induction l as [|x l IH]; intros keyed; simpl.
  { by intros [= <-]. }
  intros (y & Hy & (ys & Hys & [= <-])%bind_Ret_inv)%bind_Ret_inv.
  apply bind_Ret_inv in Hy as (k & _ & [= <-]).
  simpl. f_equal. by apply IH.
Qed.

(** Whenever the value ordering returns, it returns the values of the
    variable's domain, each as often as the domain has it. *)
Lemma prioritize_domain_values_perm ds v a values :
  prioritize_domain_values ds v a = Ret values →
  ∃ d, ds !! v = Some d ∧ Permutation values d.
Proof.
  unfold prioritize_domain_values, sorted_reverse.
  intros (d & Hd & (keyed & Hk%mapM_decorate_fst & [= <-])%bind_Ret_inv)%bind_Ret_inv.
  unfold getitem in Hd. destruct (ds !! v) as [d'|]; [|done]. injection Hd as ->.
  exists d. split; [done|]. rewrite <- Hk. apply Permutation_map, sort_desc_perm.
Qed.

Lemma within_store_insert ds a v r d :
  within_store ds a → 0 ≤ v < len_dict ds → ds !! v = Some d → In r d →
  within_store ds (<[v := r]> a).
Proof.
  intros Hin Hv Hd Hr v' r' [[<- <-]|[_ H]]%lookup_insert_Some; [eauto|by apply Hin].
Qed.

(** An assignment within the store that has as many entries as the store has
    variables has an entry for each of them. *)
Lemma within_store_full ds (a : gmap Z Z) :
  within_store ds a → size a = size ds → ∀ v, 0 ≤ v < len_dict ds → is_Some (a !! v).
Proof.
  intros Hin Hsize v Hv.
  set (R := list_to_set (range (len_dict ds)) : gset Z).
  assert (dom a ⊆ R) as Hsub.
  { intros u [r Hu]%elem_of_dom. apply elem_of_list_to_set, list_elem_of_In, in_range.
    by destruct (Hin u r Hu). }
  assert (size R = size ds) as HR.
  { unfold R. rewrite size_list_to_set by apply NoDup_ListNoDup, NoDup_range.
    rewrite range_length. unfold len_dict. lia. }
  assert (dom a = R) as Hdom.
  { apply set_subseteq_size_eq; [done|]. rewrite size_dom. lia. }
  apply elem_of_dom. rewrite Hdom.
  by apply elem_of_list_to_set, list_elem_of_In, in_range.
Qed.

Lemma try_values_sound rec ds v d values a sol a' :
  (∀ b b', rec b = Ret (None, b') → b' = b) →
  (∀ b s b', valid_placement b → within_store ds b →
             rec b = Ret (Some s, b') → sound_result ds b s b') →
  a !! v = None → 0 ≤ v < len_dict ds → ds !! v = Some d →
  (∀ w, In w values → In w d) →
  valid_placement a → within_store ds a →
  try_values rec v values a = Ret (Some sol, a') →
  sound_result ds a sol a'.
Proof.
  intros Hrestore Hsound Hfresh Hv Hd. induction values as [|w values IH];
    intros Hvals Hvalid Hin; simpl; [done|].
  assert (∀ w0, In w0 values → In w0 d) as Hvals' by (intros; apply Hvals; by right).
  destruct (check_consistency v w a) eqn:Hcons; [|apply IH; auto].
  intros ([[s|] b] & Hrec & Hrun)%bind_Ret_inv.
  - injection Hrun as <- <-.
    apply Hsound in Hrec as (-> & Hsub & ? & ? & ?).
    + split; [done|]. split; [|done].
      etrans; [|exact Hsub]. by apply insert_subseteq.
    + by apply valid_placement_insert_consistent.
    + apply (within_store_insert _ _ _ _ d); auto. apply Hvals. by left.
  - apply Hrestore in Hrec as ->.
    unfold delitem in Hrun. rewrite lookup_insert_eq in Hrun. simpl in Hrun.
    rewrite delete_insert_id in Hrun by done. apply IH; auto.
Qed.

Lemma attempt_solution_sound_gen fuel ds :
  ∀ a sol a', valid_placement a → within_store ds a →
    attempt_solution fuel ds a = Ret (Some sol, a') → sound_result ds a sol a'.
Proof.
  induction fuel as [|fuel IH]; intros a sol a' Hvalid Hin; simpl; [done|].
  destruct (len_dict a =? len_dict ds) eqn:Hlen.
  { intros [= <- <-]. split; [done|]. do 3 (split; [done|]).
    unfold len_dict in Hlen. lia. }
  intros (v & [Hv Hfresh]%select_unassigned_fresh
            & (values & (d & Hd & Hperm)%prioritize_domain_values_perm & Hrun)%bind_Ret_inv)%bind_Ret_inv.
  apply (try_values_sound (attempt_solution fuel ds) ds v d values a sol a');
    try done.
  - apply attempt_solution_frame.
  - intros w Hw. by apply (Permutation_in _ Hperm).
Qed.

Lemma try_values_complete rec v values a a' :
  (∀ b b', rec b = Ret (None, b') → b' = b) →
  a !! v = None →
  try_values rec v values a = Ret (None, a') →
  ∀ w, In w values →
    check_consistency v w a = false ∨ ∃ b', rec (<[v := w]> a) = Ret (None, b').
Proof.
  intros Hrestore Hfresh. induction values as [|w0 values IH]; simpl; [done|].
  destruct (check_consistency v w0 a) eqn:Hcons.
  - intros ([[s|] b] & Hrec & Hrun)%bind_Ret_inv; [done|].
    pose proof Hrec as Hrec'. apply Hrestore in Hrec' as ->.
    unfold delitem in Hrun. rewrite lookup_insert_eq in Hrun. simpl in Hrun.
    rewrite delete_insert_id in Hrun by done.
    intros w [<-|Hw]; [right; eauto|by apply IH].
  - intros Hrun w [<-|Hw]; [by left|by apply IH].
Qed.

Lemma attempt_solution_complete_gen fuel ds :
  ∀ a a', attempt_solution fuel ds a = Ret (None, a') →
    ∀ sol, a ⊆ sol → valid_placement sol → placement_in ds sol → False.
Proof.
  induction fuel as [|fuel IH]; intros a a'; simpl; [done|].
  destruct (len_dict a =? len_dict ds); [done|].
  intros (v & [Hv Hfresh]%select_unassigned_fresh
            & (values & (d & Hd & Hperm)%prioritize_domain_values_perm & Hrun)%bind_Ret_inv)%bind_Ret_inv
         sol Hsub Hvalid Hplace.
  destruct (Hplace v Hv) as (r & d' & Hr & Hd' & Hrd).
  assert (d' = d) as -> by congruence.
  destruct (try_values_complete _ _ _ _ _ (λ b b', proj1 (attempt_solution_frame fuel ds b) b')
              Hfresh Hrun r) as [Hcons|[b' Hrec]].
  - apply (Permutation_in _ (Permutation_sym Hperm) Hrd).
  - (* the value conflicts with an entry that the placement shares *)
    assert (check_consistency v r a = true) as Hok; [|congruence].
    apply check_consistency_iff. intros v' r' Hv'.
    assert (v' ≠ v) as Hne by congruence.
    pose proof (lookup_weaken _ _ _ _ Hv' Hsub) as Hsol.
    destruct (Hvalid v' r' v r Hsol Hr Hne). lia.
  - apply (IH _ _ Hrec sol); [|done..].
    by apply insert_subseteq_l.
Qed.

(** ** The search raises nothing on a well-formed store *)

Lemma select_unassigned_Ret ds a :
  wf_domains ds → unassigned_variables ds a ≠ [] → ∃ v, select_unassigned ds a = Ret v.
Proof.
  intros Hwf Hne. unfold select_unassigned.
  rewrite (mapM_ext_in _ (λ v, (v, key_of ds v))); last first.
  { intros x Hx%in_unassigned_variables. apply mrv_key_Some, Hwf, Hx. }
  destruct (unassigned_variables ds a) as [|x l]; [done|]. simpl. eauto.
Qed.

Lemma prioritize_domain_values_Ret ds v a d :
  wf_domains ds → ds !! v = Some d → ∃ values, prioritize_domain_values ds v a = Ret values.
Proof.
  intros Hwf Hd. unfold prioritize_domain_values. rewrite (getitem_Some _ _ _ Hd). simpl.
  destruct (sorted_reverse_spec (lcv_score ds v a) (calculate_lcv ds v a) d)
    as (values & Hrun & _); [|by exists values].
  intros x _. by apply calculate_lcv_score.
Qed.

Lemma unassigned_variables_nonempty ds (a : gmap Z Z) :
  within_store ds a → size a ≠ size ds → unassigned_variables ds a ≠ [].
Proof.
  intros Hin Hsize Hnil. apply Hsize.
  set (R := list_to_set (range (len_dict ds)) : gset Z).
  assert (dom a = R) as Hdom.
  { apply set_eq. intros u. unfold R.
    rewrite elem_of_dom, elem_of_list_to_set, list_elem_of_In, in_range. split.
    - intros [r Hu]. by destruct (Hin u r Hu).
    - intros Hu. destruct (a !! u) as [r|] eqn:Hau; [eauto|].
      assert (In u (unassigned_variables ds a)) as Hmem
        by (by apply in_unassigned_variables).
      rewrite Hnil in Hmem. destruct Hmem. }
  rewrite <- size_dom, Hdom. unfold R.
  rewrite size_list_to_set by apply NoDup_ListNoDup, NoDup_range.
  rewrite range_length. unfold len_dict. lia.
Qed.

Lemma try_values_Ret rec v values a :
  (∀ b b', rec b = Ret (None, b') → b' = b) →
  a !! v = None →
  (∀ w, In w values → ∃ r b, rec (<[v := w]> a) = Ret (r, b)) →
  ∃ r a', try_values rec v values a = Ret (r, a').
Proof.
  intros Hrestore Hfresh. induction values as [|w values IH]; intros Hrec; simpl.
  { by eexists _, _. }
  assert (∃ r a', try_values rec v values a = Ret (r, a')) as Hrest.
  { apply IH. intros w' Hw'. apply Hrec. by right. }
  destruct (check_consistency v w a); [|done].
  destruct (Hrec w (or_introl eq_refl)) as ([s|] & b & Hr); rewrite Hr; simpl.
  { by eexists _, _. }
  apply Hrestore in Hr as ->.
  unfold delitem. rewrite lookup_insert_eq. simpl. by rewrite delete_insert_id.
Qed.

Lemma attempt_solution_Ret fuel ds :
  wf_domains ds →
  ∀ a, within_store ds a →
       (length (unassigned_variables ds a) < fuel)%nat →
       ∃ r a', attempt_solution fuel ds a = Ret (r, a').
Proof.
  intros Hwf. induction fuel as [|fuel IH]; intros a Hin Hfuel; simpl; [lia|].
  destruct (len_dict a =? len_dict ds) eqn:Hlen; [by eexists _, _|].
  destruct (select_unassigned_Ret ds a Hwf) as [v Hsel].
  { apply unassigned_variables_nonempty; [done|]. unfold len_dict in Hlen. lia. }
  rewrite Hsel. simpl.
  apply select_unassigned_fresh in Hsel as [Hv Hfresh].
  destruct (Hwf v Hv) as [d Hd].
  destruct (prioritize_domain_values_Ret ds v a d Hwf Hd) as [values Hvalues].
  rewrite Hvalues. simpl.
  apply prioritize_domain_values_perm in Hvalues as (d' & Hd' & Hperm).
  assert (d' = d) as -> by congruence.
  apply try_values_Ret; [apply attempt_solution_frame|done|].
  intros w Hw. apply IH.
  - apply (within_store_insert _ _ _ _ d); auto. by apply (Permutation_in _ Hperm).
  - pose proof (unassigned_variables_insert ds a v w Hv Hfresh). lia.
Qed.

Lemma within_store_empty ds : within_store ds ∅.
Proof. intros v r Hv. by rewrite lookup_empty in Hv. Qed.

Lemma valid_placement_empty : valid_placement ∅.
Proof. intros vi ri vj rj Hi. by rewrite lookup_empty in Hi. Qed.

Lemma len_dict_init_domains n : len_dict (init_domains n) = Z.max 0 n.
Proof. unfold len_dict. rewrite size_init_domains. lia. Qed.

(** What the search from the empty assignment gives on the fresh store. *)
Lemma solve_cases (n : Z) :
  (∃ sol, solve n = Ret (Bound (Some sol)) ∧ complete n sol ∧ queens n sol)
  ∨ (solve n = Ret (Bound None) ∧ ∀ sol, ¬ queens n sol).
Proof.
  unfold solve, search_phase. rewrite apply_arcconsistency_fresh.
  cbn [mbind res_mbind res_bind domains].
  destruct (attempt_solution_Ret (search_fuel (init_domains n)) (init_domains n)
              (wf_init_domains n) ∅ (within_store_empty _)) as ([sol|] & a' & Hrun).
  { pose proof (unassigned_variables_length (init_domains n) ∅).
    unfold search_fuel. lia. }
  - left. exists sol. rewrite Hrun. split; [done|].
    apply attempt_solution_sound_gen in Hrun as (_ & _ & Hvalid & Hin & Hsize);
      [|apply valid_placement_empty|apply within_store_empty].
    pose proof (within_store_full _ _ Hin Hsize) as Hfull.
    rewrite len_dict_init_domains in Hfull.
    split; [|split; [|done]].
    + split; [by rewrite Hsize, size_init_domains|]. intros v Hv. apply Hfull. lia.
    + intros v Hv. destruct (Hfull v) as [r Hr]; [lia|]. exists r. split; [done|].
      destruct (Hin v r Hr) as (_ & d & Hd & Hrd).
      rewrite lookup_init_domains, bool_decide_eq_true_2 in Hd by done.
      injection Hd as <-. by apply in_range.
  - right. rewrite Hrun. split; [done|]. intros sol [Hrows Hvalid].
    apply (attempt_solution_complete_gen _ _ _ _ Hrun sol); [|done|].
    + apply map_empty_subseteq.
    + intros v Hv. rewrite len_dict_init_domains in Hv.
      destruct (Hrows v) as (r & Hr & Hrange); [lia|].
      exists r, (range n). split; [done|]. split; [|by apply in_range].
      rewrite lookup_init_domains, bool_decide_eq_true_2; [done|lia].
Qed.

(** X1: [check_consistency] accepts a value for a variable exactly when no
    entry of the assignment has that row, or lies on a diagonal with it; the
    order in which the dict is traversed does not matter. *)
Theorem check_consistency_no_conflict (var val : Z) (a : gmap Z Z) :
  check_consistency var val a = true
  ↔ ∀ v r, a !! v = Some r → r ≠ val ∧ Z.abs (r - val) ≠ Z.abs (v - var).
Proof. apply check_consistency_iff. Qed.

(** X2: adding to a valid placement an entry for a new column that
    [check_consistency] accepts gives a valid placement. *)
Theorem consistent_entry_keeps_placement_valid (a : gmap Z Z) (v r : Z) :
  valid_placement a → a !! v = None → check_consistency v r a = true →
  valid_placement (<[v := r]> a).
Proof. apply valid_placement_insert_consistent. Qed.

(** X3: when [attempt_solution], called on a valid partial placement drawn
    from the store, returns a solution, the caller's dict holds that solution,
    which extends the partial placement, is valid, and gives every variable
    of the store one value of its domain, with no other entry. *)
Theorem attempt_solution_sound (fuel : nat) (ds : gmap Z (list Z))
    (a sol a' : gmap Z Z) :
  valid_placement a → within_store ds a →
  attempt_solution fuel ds a = Ret (Some sol, a') →
  a' = sol ∧ a ⊆ sol ∧ valid_placement sol
  ∧ placement_in ds sol ∧ size sol = size ds.
Proof.
  intros Hvalid Hin Hrun.
  apply attempt_solution_sound_gen in Hrun as (-> & Hsub & Hv & Hw & Hsize); try done.
  do 3 (split; [done|]). split; [|done].
  intros v Hv'. destruct (within_store_full _ _ Hw Hsize v Hv') as [r Hr].
  destruct (Hw v r Hr) as (_ & d & Hd & Hrd). eauto.
Qed.

(** X4: when [attempt_solution] returns failure, no valid placement that
    gives every variable of the store a value of its domain extends the
    assignment it was called on. *)
Theorem attempt_solution_complete (fuel : nat) (ds : gmap Z (list Z))
    (a a' : gmap Z Z) :
  attempt_solution fuel ds a = Ret (None, a') →
  ¬ ∃ sol, a ⊆ sol ∧ valid_placement sol ∧ placement_in ds sol.
Proof.
  intros Hrun (sol & Hsub & Hvalid & Hplace).
  by apply (attempt_solution_complete_gen _ _ _ _ Hrun sol).
Qed.

(** X5: on a store whose keys are [0 .. len - 1], called on an assignment
    drawn from the store, [attempt_solution] raises no exception: it returns
    a solution or failure, within one level of recursion per unassigned
    variable. *)
Theorem attempt_solution_returns (fuel : nat) (ds : gmap Z (list Z)) (a : gmap Z Z) :
  wf_domains ds → within_store ds a →
  (length (unassigned_variables ds a) < fuel)%nat →
  ∃ r a', attempt_solution fuel ds a = Ret (r, a').
Proof. intros Hwf. by apply attempt_solution_Ret. Qed.

(** X6: for every board size, the solving core raises nothing and decides the
    problem: it returns a placement of [n] queens with one entry per column,
    or it returns failure and no placement of [n] queens exists. *)
Theorem solve_decides (n : Z) :
  (∃ sol, solve n = Ret (Bound (Some sol)) ∧ complete n sol ∧ queens n sol)
  ∨ (solve n = Ret (Bound None) ∧ ∀ sol, ¬ queens n sol).
Proof. apply solve_cases. Qed.

Lemma final_positions_full (sol : gmap Z Z) columns :
  (∀ c, In c columns → is_Some (sol !! c)) →
  final_positions sol columns = (one_based sol columns, Ret ()).
Proof.
  induction columns as [|c columns IH]; intros Hall; simpl; [done|].
  destruct (Hall c (or_introl eq_refl)) as [r Hr]. rewrite Hr.
  rewrite IH by (intros; apply Hall; by right). done.
Qed.

(** X7: [resolve_nqueens] ends without an exception whatever state the solver
    was in and whatever positions were read: either it prints the solution
    found, a placement of [n] queens, column by column in one-based
    coordinates, and shows it, or no placement exists and it reports the
    failure. The unbound name of line 223 is never reached. *)
Theorem resolve_nqueens_ends_normally (self : csp) (qcolumns : list Z) :
  let n := len_list qcolumns in
  (∃ sol, complete n sol ∧ queens n sol
     ∧ resolve_nqueens self qcolumns = (solution_events qcolumns sol, Ret ()))
  ∨ ((∀ sol, ¬ queens n sol)
     ∧ resolve_nqueens self qcolumns = (failure_events, Ret ())).
Proof.
  intros n. unfold resolve_nqueens, input_reader, resolve_from. fold n.
  fold (solve n).
  destruct (solve_cases n) as [(sol & -> & Hc & Hq)|[-> Hnone]].
  - left. exists sol. do 2 (split; [done|]).
    rewrite final_positions_full; [done|].
    intros c Hc'%in_range. by apply Hc.
  - right. by split.
Qed.

(** ** Arc revision, in closed form *)

Lemma revise_domains_cases ds x y :
  revise_domains ds x y
  = match ds !! x with
    | None => Raise KeyError
    | Some dx =>
        match ds !! y with
        | Some dy => Ret (negb (forallb (λ v, mem v dy) dx),
                          <[x := List.filter (λ v, mem v dy) dx]> ds)
        | None => match dx with [] => Ret (false, ds) | _ :: _ => Raise KeyError end
        end
    end.
Proof.
  destruct (ds !! x) as [dx|] eqn:Hx; [destruct (ds !! y) as [dy|] eqn:Hy|].
  - by apply revise_domains_spec.
  - unfold revise_domains. rewrite (getitem_Some _ _ _ Hx).
    destruct dx as [|v dx]; simpl; [done|]. unfold getitem. by rewrite Hy.
  - unfold revise_domains, getitem. by rewrite Hx.
Qed.

(** X8: [revise_domains(x, y)] without its loop. A missing [x] raises
    [KeyError]; so does a missing [y], unless [x]'s domain is empty, when
    nothing is read and [False] is returned; otherwise [x]'s domain becomes
    the list of its values that occur in [y]'s domain and the result tells
    whether some value does not. [list.remove] never raises. *)
Theorem revise_domains_closed_form (ds : gmap Z (list Z)) (x y : Z) :
  revise_domains ds x y
  = match ds !! x with
    | None => Raise KeyError
    | Some dx =>
        match ds !! y with
        | Some dy => Ret (negb (forallb (λ v, mem v dy) dx),
                          <[x := List.filter (λ v, mem v dy) dx]> ds)
        | None => match dx with [] => Ret (false, ds) | _ :: _ => Raise KeyError end
        end
    end.
Proof. apply revise_domains_cases. Qed.

(** X9: for two variables that have domains, [revise_domains(x, y)] leaves in
    [x]'s domain exactly the values that both domains hold, in the order and
    number [x]'s domain had them; it returns [True] exactly when [x]'s domain
    held a value that [y]'s does not; every other domain is untouched. *)
Theorem revise_domains_intersects (ds : gmap Z (list Z)) (x y : Z) (dx dy : list Z) :
  ds !! x = Some dx → ds !! y = Some dy →
  ∃ changed ds' dx',
    revise_domains ds x y = Ret (changed, ds')
    ∧ ds' !! x = Some dx'
    ∧ dx' `sublist_of` dx
    ∧ (∀ v, In v dx' ↔ In v dx ∧ In v dy)
    ∧ (∀ v, In v dy → count_occ Z.eq_dec dx' v = count_occ Z.eq_dec dx v)
    ∧ (changed = true ↔ ∃ v, In v dx ∧ ¬ In v dy)
    ∧ ∀ z, z ≠ x → ds' !! z = ds !! z.
Proof.
  intros Hx Hy. rewrite (revise_domains_spec _ _ _ _ _ Hx Hy).
  eexists _, _, _. split; [done|]. split; [apply lookup_insert_eq|].
  split; [apply filter_sublist_of|]. split; [|split; [|split]].
  - intros v. rewrite filter_In, mem_In. done.
  - intros v Hv%mem_In. clear Hx. induction dx as [|w dx IH]; simpl; [done|].
    destruct (mem w dy) eqn:Hw; simpl.
    + destruct (Z.eq_dec w v); by rewrite IH.
    + destruct (Z.eq_dec w v) as [->|]; [congruence|done].
  - rewrite negb_true_iff. split.
    + intros Hall. clear Hx. induction dx as [|w dx IH]; simpl in Hall; [done|].
      destruct (mem w dy) eqn:Hw; simpl in Hall.
      * destruct (IH Hall) as (v & Hv & Hnv). exists v. split; [by right|done].
      * exists w. split; [by left|]. rewrite <- mem_In. congruence.
    + intros (v & Hv & Hnv). apply not_true_iff_false. intros Hall.
      rewrite forallb_forall in Hall. apply Hnv, mem_In, Hall, Hv.
  - intros z Hz. by rewrite lookup_insert_ne.
Qed.

(** X10: revising an arc twice in a row changes nothing the second time: the
    second call returns [False] and the store of the first. *)
Theorem revise_domains_idempotent (ds ds' : gmap Z (list Z)) (x y : Z) (changed : bool) :
  revise_domains ds x y = Ret (changed, ds') →
  revise_domains ds' x y = Ret (false, ds').
Proof.
  rewrite !revise_domains_cases.
  destruct (ds !! x) as [dx|] eqn:Hx; [|done].
  destruct (ds !! y) as [dy|] eqn:Hy.
  - intros [= _ <-]. rewrite lookup_insert_eq.
    destruct (decide (x = y)) as [->|Hne].
    + assert (dy = dx) as -> by congruence.
      rewrite lookup_insert_eq, forallb_mem_self. simpl.
      by rewrite (filter_all_true _ _ (forallb_mem_self _)), insert_insert_eq.
    + rewrite lookup_insert_ne, Hy by done.
      assert (forallb (λ v, mem v dy) (List.filter (λ v, mem v dy) dx) = true) as Hall.
      { apply forallb_forall. by intros v [_ Hv]%filter_In. }
      rewrite Hall. simpl. by rewrite (filter_all_true _ _ Hall), insert_insert_eq.
  - destruct dx as [|v dx]; [|done]. intros [= _ <-]. by rewrite Hx, Hy.
Qed.

(** ** The store after a successful AC-3 pass *)

Lemma in_requeue cs x y p :
  In (p, x) (requeue cs x y) ↔ p ≠ y ∧ ∃ q, In (p, q) cs.
Proof.
  unfold requeue. rewrite in_map_iff. split.
  - intros ([p' q] & [= -> ] & [Hc Hne%bool_decide_eq_true]%filter_In). eauto.
  - intros (Hne & q & Hc). exists (p, q). split; [done|].
    apply filter_In. split; [done|]. by apply bool_decide_eq_true.
Qed.

Lemma ac3_loop_arc_consistent cs fuel :
  ∀ queue ds ds',
    ac3_loop fuel cs queue ds = Ret (true, ds') →
    (∀ c, In c cs → In c queue ∨ arc_consistent ds c.1 c.2) →
    ∀ c, In c cs → arc_consistent ds' c.1 c.2.
Proof.
  induction fuel as [|fuel IH]; intros queue ds ds'; simpl; [done|].
  destruct queue as [|[x y] queue].
  { intros [= <-] Hinv c Hc. by destruct (Hinv c Hc). }
  rewrite revise_domains_cases.
  destruct (ds !! x) as [dx|] eqn:Hx; [|done].
  destruct (ds !! y) as [dy|] eqn:Hy; simpl.
  - destruct (forallb (λ v, mem v dy) dx) eqn:Hall; simpl.
    + (* nothing removed: the arc is consistent *)
      rewrite (filter_all_true _ _ Hall), (insert_id _ _ _ Hx).
      intros Hrun Hinv. apply (IH _ _ _ Hrun).
      intros c Hc. destruct (Hinv c Hc) as [[<-|Hq]|Hcons]; auto.
      right. intros dx0 dy0 Hx0 Hy0 v Hv. simpl in *.
      assert (dx0 = dx) as -> by congruence. assert (dy0 = dy) as -> by congruence.
      rewrite forallb_forall in Hall. by apply mem_In, Hall.
    + rewrite (getitem_Some _ _ (List.filter (λ v, mem v dy) dx))
        by apply lookup_insert_eq. simpl.
      destruct (List.filter (λ v, mem v dy) dx) as [|w dx'] eqn:Hdx'; [done|].
      rewrite <- Hdx'. clear w dx' Hdx'.
      assert (x ≠ y) as Hxy.
      { intros ->. assert (dy = dx) as -> by congruence.
        by rewrite forallb_mem_self in Hall. }
      intros Hrun Hinv. apply (IH _ _ _ Hrun).
      intros [p q] Hc. simpl.
      destruct (Hinv _ Hc) as [[[= <- <-]|Hq]|Hcons].
      * right. intros dx0 dy0. simpl.
        rewrite lookup_insert_eq, lookup_insert_ne, Hy by done.
        intros [= <-] [= <-] v [_ Hv]%filter_In. by apply mem_In.
      * left. apply in_or_app. by left.
      * simpl in Hcons. destruct (decide (q = x)) as [->|Hqx].
        -- destruct (decide (p = x)) as [->|Hpx].
           { right. intros dx0 dy0 H1 H2 v Hv. congruence. }
           destruct (decide (p = y)) as [->|Hpy].
           ++ right. intros dx0 dy0.
              rewrite lookup_insert_ne, lookup_insert_eq, Hy by done.
              intros [= <-] [= <-] v Hv. apply filter_In.
              split; [by apply (Hcons dy dx)|by apply mem_In].
           ++ left. apply in_or_app. right. apply in_requeue. eauto.
        -- right. intros dx0 dy0 H1 H2 v Hv.
           rewrite lookup_insert_ne in H2 by done.
           destruct (decide (p = x)) as [->|Hpx].
           ++ rewrite lookup_insert_eq in H1. injection H1 as <-.
              apply filter_In in Hv as [Hv _]. by apply (Hcons dx dy0).
           ++ rewrite lookup_insert_ne in H1 by done. by apply (Hcons dx0 dy0).
  - destruct dx as [|v dx]; simpl; [|done].
    intros Hrun Hinv. apply (IH _ _ _ Hrun).
    intros c Hc. destruct (Hinv c Hc) as [[<-|Hq]|Hcons]; auto.
    right. intros dx0 dy0 Hx0 Hy0. simpl in *. congruence.
Qed.

(** X11: when the AC-3 pass returns [True], every arc of the constraint list
    is settled in the store it leaves: each value left in the domain of the
    arc's first variable occurs in the domain of its second. *)
Theorem ac3_success_arc_consistent (self self' : csp) :
  apply_arcconsistency_algorithm self = Ret (true, self') →
  ∀ x y dx dy, In (x, y) (constraints self) →
    domains self' !! x = Some dx → domains self' !! y = Some dy →
    ∀ v, In v dx → In v dy.
Proof.
  unfold apply_arcconsistency_algorithm.
  intros ([ok ds'] & Hrun & [= -> <-])%bind_Ret_inv x y dx dy Hc.
  apply (ac3_loop_arc_consistent _ _ _ _ _ Hrun (λ c Hc, or_introl Hc) (x, y) Hc).
Qed.

Lemma ac3_loop_stable cs fuel :
  ∀ queue ds,
    arcs_in_store ds queue →
    (∀ c, In c queue → arc_consistent ds c.1 c.2) →
    (length queue < fuel)%nat →
    ac3_loop fuel cs queue ds = Ret (true, ds).
Proof.
  induction fuel as [|fuel IH]; intros queue ds Hstore Hcons Hfuel; [lia|].
  destruct queue as [|[x y] queue]; simpl; [done|].
  destruct (Hstore (x, y) (or_introl eq_refl)) as [[dx Hx] [dy Hy]]. simpl in *.
  rewrite (revise_domains_spec _ _ _ _ _ Hx Hy).
  assert (forallb (λ v, mem v dy) dx = true) as Hall.
  { apply forallb_forall. intros v Hv. apply mem_In.
    by apply (Hcons (x, y) (or_introl eq_refl) dx dy). }
  rewrite Hall, (filter_all_true _ _ Hall), (insert_id _ _ _ Hx). simpl.
  apply IH; [| |lia]; intros c Hc; [apply Hstore|apply Hcons]; by right.
Qed.

(** X12: a successful AC-3 pass reaches a fixed point: run again on the store
    it left, the pass returns [True] and changes no domain. *)
Theorem ac3_success_is_fixed_point (self self' : csp) :
  arcs_in_store (domains self) (constraints self) →
  apply_arcconsistency_algorithm self = Ret (true, self') →
  apply_arcconsistency_algorithm self' = Ret (true, self').
Proof.
  unfold apply_arcconsistency_algorithm.
  intros Hstore ([ok ds'] & Hrun & [= -> <-])%bind_Ret_inv. cbn [domains constraints].
  destruct (ac3_loop_sound _ _ _ _ _ _ Hrun) as [Hshr _].
  rewrite ac3_loop_stable; [done| | |unfold ac3_fuel; cbn [domains constraints]; lia].
  - by apply (arcs_in_store_shrinks (domains self)).
  - apply (ac3_loop_arc_consistent _ _ _ _ _ Hrun). auto.
Qed.

(** ** The store that [input_reader] builds *)

Lemma flat_map_length_const {A B : Type} (f : A → list B) (l : list A) (k : nat) :
  (∀ x, In x l → length (f x) = k) → length (flat_map f l) = (length l * k)%nat.
Proof.
  induction l as [|x l IH]; intros Hf; simpl; [done|].
  rewrite length_app, (Hf x) by (by left).
  rewrite IH; [lia|]. intros y Hy. apply Hf. by right.
Qed.

Lemma in_arcs_from i l c : In c (arcs_from i l) ↔ c.1 = i ∧ In c.2 l ∧ c.1 ≠ c.2.
Proof.
  unfold arcs_from. rewrite in_flat_map. split.
  - intros (j & Hj & Hc). case_bool_decide; [|done]. destruct Hc as [<-|[]]. done.
  - intros (<- & Hj & Hne). exists c.2. split; [done|].
    rewrite bool_decide_eq_true_2 by done. left. by destruct c.
Qed.

Lemma arcs_from_length i l :
  List.NoDup l →
  (length (arcs_from i l) + (if bool_decide (i ∈ l) then 1 else 0) = length l)%nat.
Proof.
  unfold arcs_from. induction 1 as [|j l Hj Hnd IH]; simpl; [done|].
  rewrite length_app. destruct (decide (i = j)) as [->|Hne].
  - rewrite (bool_decide_eq_false_2 (j ≠ j)) by (intros ?; done).
    rewrite (bool_decide_eq_true_2 (j ∈ j :: l)) by apply list_elem_of_here.
    rewrite bool_decide_eq_false_2 in IH by (by rewrite list_elem_of_In).
    simpl. lia.
  - rewrite (bool_decide_eq_true_2 (i ≠ j)) by done.
    rewrite (bool_decide_ext (i ∈ j :: l) (i ∈ l))
      by (rewrite elem_of_cons; split; [by intros [?|?]|by right]).
    simpl. lia.
Qed.

Lemma arcs_from_NoDup i l : List.NoDup l → List.NoDup (arcs_from i l).
Proof.
  induction 1 as [|j l Hj Hnd IH]; simpl; [constructor|].
  case_bool_decide; [|done]. simpl. constructor; [|done].
  intros (_ & Hin & _)%in_arcs_from. done.
Qed.

Lemma init_constraints_NoDup_gen (l r : list Z) :
  List.NoDup l → List.NoDup r → List.NoDup (flat_map (λ i, arcs_from i r) l).
Proof.
  intros Hl Hr. induction Hl as [|i l Hi Hnd IH]; simpl; [constructor|].
  apply NoDup_ListNoDup, NoDup_app. split; [|split].
  - by apply NoDup_ListNoDup, arcs_from_NoDup.
  - intros c (Hc & _)%list_elem_of_In%in_arcs_from (i' & Hi' & (Hc' & _)%in_arcs_from)%list_elem_of_In%in_flat_map.
    congruence.
  - by apply NoDup_ListNoDup.
Qed.

(** X13: [input_reader] returns the positions as read and overwrites the
    solver state from their number [n] alone: the store has exactly the keys
    [0 .. n - 1], each with the domain [[0, ..., n - 1]], and the constraint
    list holds each ordered pair of distinct variables exactly once, that is
    [n * (n - 1)] arcs. *)
Theorem input_reader_builds_full_store (self : csp) (qcolumns : list Z) :
  let n := len_list qcolumns in
  let self' := (input_reader self qcolumns).2 in
  (input_reader self qcolumns).1 = qcolumns
  ∧ size (domains self') = length qcolumns
  ∧ (∀ v, domains self' !! v = if bool_decide (0 ≤ v < n) then Some (range n) else None)
  ∧ (∀ x y, In (x, y) (constraints self') ↔ 0 ≤ x < n ∧ 0 ≤ y < n ∧ x ≠ y)
  ∧ List.NoDup (constraints self')
  ∧ length (constraints self') = (length qcolumns * (length qcolumns - 1))%nat.
Proof.
  intros n self'. subst n self'. unfold input_reader.
  cbn [fst snd domains constraints]. set (n := len_list qcolumns).
  assert (Z.to_nat n = length qcolumns) as Hn by (unfold n, len_list; lia).
  split; [done|]. split; [by rewrite size_init_domains|].
  split; [apply lookup_init_domains|]. split; [|split].
  - intros x y. by rewrite in_init_constraints.
  - apply init_constraints_NoDup_gen; apply NoDup_range.
  - unfold init_constraints.
    change (flat_map _ (range n)) with (flat_map (λ i, arcs_from i (range n)) (range n)).
    rewrite (flat_map_length_const _ _ (length qcolumns - 1)).
    + by rewrite range_length, Hn.
    + intros i Hi. pose proof (arcs_from_length i _ (NoDup_range n)) as Hlen.
      rewrite bool_decide_eq_true_2, range_length, Hn in Hlen
        by (by apply list_elem_of_In).
      lia.
Qed.

(** ** Errors of the two orderings *)

Lemma mapM_mrv_key_KeyError ds l u :
  In u l → ds !! u = None → mapM (mrv_key ds) l = Raise KeyError.
Proof.
  intros Hu Hnone. induction l as [|v l IH]; [done|]. simpl.
  destruct Hu as [->|Hu].
  - unfold mrv_key, getitem. by rewrite Hnone.
  - rewrite (IH Hu).
    destruct (mrv_key ds v) as [k|e|] eqn:Hk; simpl; [done| |];
      unfold mrv_key, getitem in Hk; destruct (ds !! v); simpl in Hk; congruence.
Qed.

(** X14: [select_unassigned] raises [ValueError] when every variable of the
    store is assigned, and [KeyError] when some unassigned variable below
    [len(domains)] has no domain. *)
Theorem select_unassigned_errors (ds : gmap Z (list Z)) (a : gmap Z Z) :
  ((∀ v, 0 ≤ v < len_dict ds → is_Some (a !! v)) →
   select_unassigned ds a = Raise ValueError)
  ∧ (∀ u, 0 ≤ u < len_dict ds → a !! u = None → ds !! u = None →
     select_unassigned ds a = Raise KeyError).
Proof.
  unfold select_unassigned. split.
  - intros Hall. destruct (unassigned_variables ds a) as [|u l] eqn:Hl; [done|].
    assert (In u (unassigned_variables ds a)) as [Hu Hnone]%in_unassigned_variables
      by (rewrite Hl; by left).
    destruct (Hall u Hu). congruence.
  - intros u Hu Ha Hd. rewrite (mapM_mrv_key_KeyError ds _ u); [done| |done].
    by apply in_unassigned_variables.
Qed.

(** X15: [prioritize_domain_values] raises [KeyError] for a variable without
    a domain, returns the empty list for an empty domain without reading any
    other domain, and whenever it returns, it returns the values of the
    variable's domain, each as often as the domain holds it. *)
Theorem prioritize_domain_values_outcomes (ds : gmap Z (list Z)) (v : Z) (a : gmap Z Z) :
  (ds !! v = None → prioritize_domain_values ds v a = Raise KeyError)
  ∧ (ds !! v = Some [] → prioritize_domain_values ds v a = Ret [])
  ∧ (∀ values, prioritize_domain_values ds v a = Ret values →
       ∃ d, ds !! v = Some d ∧ Permutation values d).
Proof.
  split; [|split].
  - intros Hv. unfold prioritize_domain_values, getitem. by rewrite Hv.
  - intros Hv. unfold prioritize_domain_values. by rewrite (getitem_Some _ _ _ Hv).
  - intros values. apply prioritize_domain_values_perm.
Qed.

(** ** Values that every domain holds *)

Lemma revise_domains_common ds x y changed ds' v :
  revise_domains ds x y = Ret (changed, ds') →
  (∀ z d, ds !! z = Some d → In v d) → ∀ z d, ds' !! z = Some d → In v d.
Proof.
  rewrite revise_domains_cases.
  destruct (ds !! x) as [dx|] eqn:Hx; [|done].
  destruct (ds !! y) as [dy|] eqn:Hy.
  - intros [= _ <-] Hall z d [[<- <-]|[_ Hz]]%lookup_insert_Some; [|by apply (Hall z)].
    apply filter_In. split; [by apply (Hall x)|]. apply mem_In. by apply (Hall y).
  - destruct dx; [|done]. intros [= _ <-]. auto.
Qed.

Lemma ac3_loop_common cs fuel v :
  ∀ queue ds ok ds',
    ac3_loop fuel cs queue ds = Ret (ok, ds') →
    (∀ z d, ds !! z = Some d → In v d) → ∀ z d, ds' !! z = Some d → In v d.
Proof.
  induction fuel as [|fuel IH]; intros queue ds ok ds'; simpl; [done|].
  destruct queue as [|[x y] queue].
  { intros [= _ <-]. auto. }
  intros ([changed ds1] & Hrev & Hrun)%bind_Ret_inv Hall.
  pose proof (revise_domains_common _ _ _ _ _ v Hrev Hall) as Hall1.
  destruct changed.
  - apply bind_Ret_inv in Hrun as (dx & Hget & Hrun).
    destruct dx as [|w dx]; [by injection Hrun as _ <-|]. by apply (IH _ _ _ _ Hrun).
  - by apply (IH _ _ _ _ Hrun).
Qed.

(** X16: a value that every domain of the store holds is never removed by the
    AC-3 pass, and a pass on such a store cannot report failure. *)
Theorem ac3_keeps_common_values (self self' : csp) (ok : bool) (v : Z) :
  (∀ z d, domains self !! z = Some d → In v d) →
  apply_arcconsistency_algorithm self = Ret (ok, self') →
  ok = true ∧ ∀ z d, domains self' !! z = Some d → In v d.
Proof.
  unfold apply_arcconsistency_algorithm.
  intros Hall ([ok' ds'] & Hrun & [= -> <-])%bind_Ret_inv. cbn [domains].
  pose proof (ac3_loop_common _ _ v _ _ _ _ Hrun Hall) as Hall'.
  split; [|done]. destruct ok; [done|].
  destruct (ac3_loop_sound _ _ _ _ _ _ Hrun) as [_ [z Hz]]; [done|].
  destruct (Hall' z [] Hz).
Qed.


(** ** Instances of the further properties *)

Lemma valid_placement_singleton (v r : Z) : valid_placement {[v := r]}.
Proof.
  intros vi ri vj rj [-> _]%lookup_singleton_Some [-> _]%lookup_singleton_Some. done.
Defined.

Lemma consistent_entry_keeps_placement_valid_witness :
  valid_placement ({[0 := 1]} : gmap Z Z)
  ∧ ({[0 := 1]} : gmap Z Z) !! 1 = None
  ∧ check_consistency 1 3 {[0 := 1]} = true
  ∧ valid_placement (<[1 := 3]> {[0 := 1]}).
Proof.
  assert (({[0 := 1]} : gmap Z Z) !! 1 = None) as Hfresh by (by vm_compute).
  assert (check_consistency 1 3 {[0 := 1]} = true) as Hcons by (by vm_compute).
  split; [apply valid_placement_singleton|]. split; [exact Hfresh|].
  split; [exact Hcons|].
  apply (consistent_entry_keeps_placement_valid _ 1 3
           (valid_placement_singleton 0 1) Hfresh Hcons).
Defined.

Lemma attempt_solution_sound_witness :
  valid_placement (∅ : gmap Z Z)
  ∧ within_store (init_domains 4) ∅
  ∧ attempt_solution 5 (init_domains 4) ∅ = Ret (Some placement4, placement4)
  ∧ placement4 = placement4 ∧ ∅ ⊆ placement4 ∧ valid_placement placement4
  ∧ placement_in (init_domains 4) placement4
  ∧ size placement4 = size (init_domains 4).
Proof.
  assert (attempt_solution 5 (init_domains 4) ∅ = Ret (Some placement4, placement4))
    as Hrun by (by vm_compute).
  split; [apply valid_placement_empty|]. split; [apply within_store_empty|].
  split; [exact Hrun|].
  apply (attempt_solution_sound 5 (init_domains 4) ∅ placement4 placement4
           valid_placement_empty (within_store_empty _) Hrun).
Defined.

Lemma attempt_solution_complete_witness :
  attempt_solution 4 (init_domains 3) ∅ = Ret (None, ∅)
  ∧ ¬ ∃ sol, ∅ ⊆ sol ∧ valid_placement sol ∧ placement_in (init_domains 3) sol.
Proof.
  assert (attempt_solution 4 (init_domains 3) ∅ = Ret (None, ∅)) as Hrun
    by (by vm_compute).
  split; [exact Hrun|].
  apply (attempt_solution_complete 4 (init_domains 3) ∅ ∅ Hrun).
Defined.

Lemma attempt_solution_returns_witness :
  wf_domains (init_domains 4)
  ∧ within_store (init_domains 4) ∅
  ∧ (length (unassigned_variables (init_domains 4) ∅) < 5)%nat
  ∧ ∃ r a', attempt_solution 5 (init_domains 4) ∅ = Ret (r, a').
Proof.
  assert (length (unassigned_variables (init_domains 4) ∅) < 5)%nat as Hfuel
    by (vm_compute; lia).
  split; [apply wf_init_domains|]. split; [apply within_store_empty|].
  split; [exact Hfuel|].
  apply (attempt_solution_returns 5 (init_domains 4) ∅
           (wf_init_domains 4) (within_store_empty _) Hfuel).
Defined.

Lemma revise_domains_intersects_witness :
  let ds : gmap Z (list Z) := <[0 := [0; 1]]> (<[1 := [0]]> ∅) in
  ds !! 0 = Some [0; 1] ∧ ds !! 1 = Some [0]
  ∧ ∃ changed ds' dx',
      revise_domains ds 0 1 = Ret (changed, ds')
      ∧ ds' !! 0 = Some dx'
      ∧ dx' `sublist_of` [0; 1]
      ∧ (∀ v, In v dx' ↔ In v [0; 1] ∧ In v [0])
      ∧ (∀ v, In v [0] → count_occ Z.eq_dec dx' v = count_occ Z.eq_dec [0; 1] v)
      ∧ (changed = true ↔ ∃ v, In v [0; 1] ∧ ¬ In v [0])
      ∧ ∀ z, z ≠ 0 → ds' !! z = ds !! z.
Proof.
  intros ds.
  assert (ds !! 0 = Some [0; 1]) as Hx by (by vm_compute).
  assert (ds !! 1 = Some [0]) as Hy by (by vm_compute).
  split; [exact Hx|]. split; [exact Hy|].
  apply (revise_domains_intersects ds 0 1 [0; 1] [0] Hx Hy).
Defined.

Lemma revise_domains_idempotent_witness :
  let ds : gmap Z (list Z) := <[0 := [0; 1]]> (<[1 := [0]]> ∅) in
  revise_domains ds 0 1 = Ret (true, <[0 := [0]]> ds)
  ∧ revise_domains (<[0 := [0]]> ds) 0 1 = Ret (false, <[0 := [0]]> ds).
Proof.
  intros ds.
  assert (revise_domains ds 0 1 = Ret (true, <[0 := [0]]> ds)) as Hrun
    by (by vm_compute).
  split; [exact Hrun|].
  apply (revise_domains_idempotent ds (<[0 := [0]]> ds) 0 1 true Hrun).
Defined.

Lemma arcs_in_overlap_store :
  arcs_in_store (domains overlap_store) (constraints overlap_store).
Proof. intros c [<-|[<-|[]]]; split; vm_compute; eauto. Defined.

Lemma overlap_store_run :
  apply_arcconsistency_algorithm overlap_store
  = Ret (true, Csp (<[0 := [1; 2]]> (<[1 := [1; 2]]> ∅)) [(0, 1); (1, 0)]).
Proof. by vm_compute. Defined.

Lemma ac3_success_arc_consistent_witness :
  let self' := Csp (<[0 := [1; 2]]> (<[1 := [1; 2]]> ∅)) [(0, 1); (1, 0)] in
  apply_arcconsistency_algorithm overlap_store = Ret (true, self')
  ∧ ∀ x y dx dy, In (x, y) (constraints overlap_store) →
      domains self' !! x = Some dx → domains self' !! y = Some dy →
      ∀ v, In v dx → In v dy.
Proof.
  intros self'. split; [exact overlap_store_run|].
  apply (ac3_success_arc_consistent overlap_store self' overlap_store_run).
Defined.

Lemma ac3_success_is_fixed_point_witness :
  let self' := Csp (<[0 := [1; 2]]> (<[1 := [1; 2]]> ∅)) [(0, 1); (1, 0)] in
  arcs_in_store (domains overlap_store) (constraints overlap_store)
  ∧ apply_arcconsistency_algorithm overlap_store = Ret (true, self')
  ∧ apply_arcconsistency_algorithm self' = Ret (true, self').
Proof.
  intros self'. split; [apply arcs_in_overlap_store|].
  split; [exact overlap_store_run|].
  apply (ac3_success_is_fixed_point overlap_store self'
           arcs_in_overlap_store overlap_store_run).
Defined.

Lemma select_unassigned_errors_witness :
  (∀ v, 0 ≤ v < len_dict (init_domains 2) →
        is_Some ((<[0 := 0]> (<[1 := 1]> ∅) : gmap Z Z) !! v))
  ∧ select_unassigned (init_domains 2) (<[0 := 0]> (<[1 := 1]> ∅)) = Raise ValueError
  ∧ 0 ≤ 1 < len_dict gap_store ∧ (∅ : gmap Z Z) !! 1 = None ∧ gap_store !! 1 = None
  ∧ select_unassigned gap_store ∅ = Raise KeyError.
Proof.
  assert (∀ v, 0 ≤ v < len_dict (init_domains 2) →
               is_Some ((<[0 := 0]> (<[1 := 1]> ∅) : gmap Z Z) !! v)) as Hall.
  { intros v Hv. change (len_dict (init_domains 2)) with 2 in Hv.
    assert (v = 0 ∨ v = 1) as [-> | ->] by lia; vm_compute; eauto. }
  assert (0 ≤ 1 < len_dict gap_store) as Hu by (by vm_compute).
  assert (gap_store !! 1 = None) as Hgap by (by vm_compute).
  split; [exact Hall|].
  split; [apply (proj1 (select_unassigned_errors _ _) Hall)|].
  split; [exact Hu|]. split; [apply lookup_empty|]. split; [exact Hgap|].
  apply (proj2 (select_unassigned_errors gap_store ∅) 1 Hu (lookup_empty 1) Hgap).
Defined.

Lemma prioritize_domain_values_outcomes_witness :
  gap_store !! 1 = None
  ∧ prioritize_domain_values gap_store 1 ∅ = Raise KeyError
  ∧ (<[0 := []]> gap_store) !! 0 = Some []
  ∧ prioritize_domain_values (<[0 := []]> gap_store) 0 ∅ = Ret []
  ∧ prioritize_domain_values (init_domains 4) 3 ∅ = Ret [0; 1; 2; 3]
  ∧ ∃ d, init_domains 4 !! 3 = Some d ∧ Permutation [0; 1; 2; 3] d.
Proof.
  assert (gap_store !! 1 = None) as Hgap by (by vm_compute).
  assert ((<[0 := []]> gap_store) !! 0 = Some []) as Hnil by (by vm_compute).
  assert (prioritize_domain_values (init_domains 4) 3 ∅ = Ret [0; 1; 2; 3]) as Hrun
    by (by vm_compute).
  split; [exact Hgap|].
  split; [apply (proj1 (prioritize_domain_values_outcomes gap_store 1 ∅) Hgap)|].
  split; [exact Hnil|].
  split; [apply (proj1 (proj2 (prioritize_domain_values_outcomes _ 0 ∅)) Hnil)|].
  split; [exact Hrun|].
  apply (proj2 (proj2 (prioritize_domain_values_outcomes _ 3 ∅)) _ Hrun).
Defined.

Lemma ac3_keeps_common_values_witness :
  let self' := Csp (<[0 := [1; 2]]> (<[1 := [1; 2]]> ∅)) [(0, 1); (1, 0)] in
  (∀ z d, domains overlap_store !! z = Some d → In 2 d)
  ∧ apply_arcconsistency_algorithm overlap_store = Ret (true, self')
  ∧ true = true ∧ ∀ z d, domains self' !! z = Some d → In 2 d.
Proof.
  intros self'.
  assert (∀ z d, domains overlap_store !! z = Some d → In 2 d) as Hall.
  { intros z d. unfold overlap_store. cbn [domains].
    intros [[<- <-]|[_ [[<- <-]|[_ Hz]]%lookup_insert_Some]]%lookup_insert_Some;
      [simpl; tauto|simpl; tauto|by rewrite lookup_empty in Hz]. }
  split; [exact Hall|]. split; [exact overlap_store_run|].
  apply (ac3_keeps_common_values overlap_store self' true 2 Hall overlap_store_run).
Defined.


(** ** The branch of a failed AC-3 pass *)


